(** * qthreads: the bounded function queue (src/function_queue.c)

    A shallow embedding of the circular buffer of [function_queue.c] and of
    its locking discipline, together with the properties the specification
    states about it, followed by the worker loop and the pool of
    [threading_queue.c] and further properties read off the code.

    - The [unsigned] fields of [struct function_queue] are integers in [Z]
      with the wrap-around modulo [2^32] written out.
    - The buffer [q->elements] is a list of slots updated by index; an
      access outside the allocated block is undefined behaviour and makes
      the embedded function return [None].
    - The pthread primitives are external.  Their return codes come from an
      oracle ([nat -> Z], indexed by the number of the call) and every call
      is recorded in a trace. *)

From Stdlib Require Import ZArith List Lia Bool.
From stdpp Require Import base list.
Import ListNotations.

Local Open Scope Z_scope.

(** ** Data model *)

(** Modelled from the spec: [struct function_queue_element] is declared in
    [function_queue.h], which is not among the sources.  A task is "a
    function reference taking one opaque argument, plus that argument";
    the fields are the ones [get_and_run] uses, [fqe.func(fqe.arg)].  A
    function pointer and a [void*] are kept as their addresses. *)
Record function_queue_element : Type := FQE {
  func : Z;
  arg : Z
}.

(** One cell of the [malloc]ed buffer: [None] is memory that was never
    written (indeterminate contents). *)
Abbreviation slot := (option function_queue_element).

(** Modelled from the spec: [struct function_queue] is declared in
    [function_queue.h], which is not among the sources.  The fields are
    the ones [fq_init] assigns; the four counters are [unsigned]
    ([fq_init] stores its [unsigned max_elements], [fq_peek] copies
    [q->front + 1] into an [unsigned]).  [elements] is [None] for the null
    pointer and [Some l] for an allocated block.  The [lock] field lives
    in the environment (see [world]). *)
Record function_queue : Type := FQ {
  elements : option (list slot);
  front : Z;
  back : Z;
  size : Z;
  max_elements : Z
}.

(** Modelled from the spec: [enum pt_error] is declared in [pt_error.h],
    which is not among the sources.  These are the enumerators that
    [function_queue.c] names.  Their numeric values are unknown but for
    [PT_SUCCESS], which is the zero one: [get_and_run] runs the task when
    [fq_pop(...) == 0], and the specification speaks of "a result-code
    field that is always zero at that point". *)
Inductive pt_error : Type :=
| PT_SUCCESS
| PT_EFQFULL
| PT_EFQEMPTY
| PT_EPML
| PT_EPMTL
| PT_EPMU
| PT_EPMD
| PT_EPMAI
| PT_EPO
| PT_EMALLOC.

(** The C test [ret == 0] on a [enum pt_error]. *)
Definition pt_is_zero (r : pt_error) : bool :=
  match r with PT_SUCCESS => true | _ => false end.

(** Arithmetic of C's [unsigned], taken 32 bits wide.  The proofs below
    use the width only through [max_elements < UINT_RANGE]. *)
Definition UINT_RANGE : Z := 2 ^ 32.
Definition u32 (x : Z) : Z := x mod UINT_RANGE.

(** ** The environment: pthread calls *)

Inductive pthread_call : Type :=
| Mutex_lock
| Mutex_trylock
| Mutex_unlock.

Record event : Type := Ev {
  ev_call : pthread_call;
  ev_rc : Z
}.

(** The state a queue operation runs in: the queue it points to, the return
    codes the pthread calls are going to deliver, and the calls made so
    far (oldest first). *)
Record world : Type := World {
  w_queue : function_queue;
  w_rc : nat -> Z;
  w_trace : list event
}.

(** State passing with undefined behaviour as [None]. *)
Definition M (A : Type) : Type := world -> option (A * world).

Definition mreturn {A} (a : A) : M A := fun w => Some (a, w).

Definition mbind' {A B} (m : M A) (k : A -> M B) : M B :=
  fun w => match m w with
           | Some (a, w') => k a w'
           | None => None
           end.

Declare Scope fq_scope.
Delimit Scope fq_scope with fq.
Notation "x <- m ;; k" := (mbind' m (fun x => k))
  (at level 100, m at next level, k at level 200, only parsing) : fq_scope.
Notation "m1 ;; m2" := (mbind' m1 (fun _ => m2))
  (at level 100, m2 at level 200, only parsing) : fq_scope.
Local Open Scope fq_scope.

Definition get_queue : M function_queue :=
  fun w => Some (w_queue w, w).

Definition put_queue (q : function_queue) : M unit :=
  fun w => Some (tt, World q (w_rc w) (w_trace w)).

(** A pthread call: the oracle gives its return code, the trace grows. *)
Definition pthread (c : pthread_call) : M Z :=
  fun w =>
    let rc := w_rc w (length (w_trace w)) in
    Some (rc, World (w_queue w) (w_rc w) (w_trace w ++ [Ev c rc])).

Definition pthread_mutex_lock : M Z := pthread Mutex_lock.
Definition pthread_mutex_trylock : M Z := pthread Mutex_trylock.
Definition pthread_mutex_unlock : M Z := pthread Mutex_unlock.

(** [q->elements[i]] as an rvalue. *)
Definition load_element (i : Z) : M slot :=
  fun w =>
    match elements (w_queue w) with
    | Some l =>
        match l !! Z.to_nat i with
        | Some s => Some (s, w)
        | None => None
        end
    | None => None
    end.

(** [q->elements[i] = e]. *)
Definition store_element (i : Z) (e : function_queue_element) : M unit :=
  fun w =>
    let q := w_queue w in
    match elements q with
    | Some l =>
        if (Z.to_nat i <? length l)%nat
        then Some (tt, World (FQ (Some (<[Z.to_nat i := Some e]> l))
                                 (front q) (back q) (size q) (max_elements q))
                             (w_rc w) (w_trace w))
        else None
    | None => None
    end.

(** ** fq_init *)

(** What [init_attr] left in the static [init_attr_ret]: [settype] is only
    assigned when [pthread_mutexattr_init] succeeded and is otherwise the
    zero of static storage. *)
Record init_attr_ret_t : Type := InitAttrRet {
  init : Z;
  settype : Z
}.

Definition init_attr (mutexattr_init_rc mutexattr_settype_rc : Z) : init_attr_ret_t :=
  if mutexattr_init_rc =? 0
  then InitAttrRet mutexattr_init_rc mutexattr_settype_rc
  else InitAttrRet mutexattr_init_rc 0.

(** The outcomes of the library calls [fq_init] makes. *)
Record init_env : Type := InitEnv {
  once_rc : Z;                      (* pthread_once *)
  init_attr_ret : init_attr_ret_t;  (* the static filled by init_attr *)
  mutex_init_rc : Z;                (* pthread_mutex_init *)
  malloc_ok : bool;                 (* malloc returned a block *)
  mutex_destroy_rc : Z              (* pthread_mutex_destroy *)
}.

(** [malloc(n * sizeof(struct function_queue_element))]: the null pointer
    or a block of [n] cells with indeterminate contents. *)
Definition malloc (ok : bool) (n : Z) : option (list slot) :=
  if ok then Some (replicate (Z.to_nat n) None) else None.

(** [fq_init(q, max_elements)]: [q0] is what [*q] held before the call. *)
Definition fq_init (env : init_env) (q0 : function_queue) (max_elements : Z)
  : pt_error * function_queue :=
  let ret := PT_SUCCESS in
  let po := once_rc env in
  if po =? 0 then
    if negb (init (init_attr_ret env) =? 0) then (PT_EPML, q0)
    else if negb (settype (init_attr_ret env) =? 0) then (PT_EPMAI, q0)
    else if mutex_init_rc env =? 0 then
      let els := malloc (malloc_ok env) max_elements in
      let q := FQ els 0 0 0 max_elements in
      match els with
      | None =>
          let ret := PT_EMALLOC in
          let pml := mutex_destroy_rc env in
          (if negb (pml =? 0) then PT_EPMU else ret, q)
      | Some _ => (ret, q)
      end
    else (PT_EPML, q0)
  else (PT_EPO, q0).

(** ** The queue operations *)

(** [if(block != 0) pml = pthread_mutex_lock(&q->lock);
     else pml = pthread_mutex_trylock(&q->lock);] *)
Definition acquire (block : Z) : M Z :=
  if negb (block =? 0) then pthread_mutex_lock else pthread_mutex_trylock.

(** The [else] branch shared by all five operations. *)
Definition lock_failed (block : Z) : pt_error :=
  if block =? 0 then PT_EPMTL else PT_EPML.

(** [fq_is_empty(q, is_empty, block)]: the argument [is_empty] is the value
    of [*is_empty] before the call, the second component of the result its
    value after the call.  The callers pass the address of a local, so
    [assert(is_empty != NULL)] holds. *)
Definition fq_is_empty (is_empty : Z) (block : Z) : M (pt_error * Z) :=
  let ret := PT_SUCCESS in
  pml <- acquire block ;;
  if pml =? 0 then
    q <- get_queue ;;
    let is_empty := Z.b2z (size q =? 0) in
    pml <- pthread_mutex_unlock ;;
    mreturn (if negb (pml =? 0) then PT_EPMU else ret, is_empty)
  else
    mreturn (lock_failed block, is_empty).

(** [fq_is_full(q, is_empty, block)]; the out-parameter is called
    [is_empty] in the source too.  The branch tests [ret], not [pml]. *)
Definition fq_is_full (is_empty : Z) (block : Z) : M (pt_error * Z) :=
  let ret := PT_SUCCESS in
  pml <- acquire block ;;
  if pt_is_zero ret then
    q <- get_queue ;;
    let is_empty := Z.b2z (size q =? max_elements q) in
    pml <- pthread_mutex_unlock ;;
    mreturn (if negb (pml =? 0) then PT_EPMU else ret, is_empty)
  else
    mreturn (lock_failed block, is_empty).

(** [fq_push(q, e, block)]. *)
Definition fq_push (e : function_queue_element) (block : Z) : M pt_error :=
  let ret := PT_SUCCESS in
  pml <- acquire block ;;
  if pml =? 0 then
    let is_full := 0 in
    r <- fq_is_full is_full block ;;
    let is_full := snd r in
    ret <- (if negb (is_full =? 0) then mreturn PT_EFQFULL
            else
              q <- get_queue ;;
              put_queue (FQ (elements q) (front q) (back q)
                            (u32 (size q + 1)) (max_elements q)) ;;
              q <- get_queue ;;
              let back' := u32 (back q + 1) in
              put_queue (FQ (elements q) (front q)
                            (if back' =? max_elements q then 0 else back')
                            (size q) (max_elements q)) ;;
              q <- get_queue ;;
              store_element (back q) e ;;
              mreturn ret) ;;
    pml <- pthread_mutex_unlock ;;
    mreturn (if negb (pml =? 0) then PT_EPMU else ret)
  else
    mreturn (lock_failed block).

(** [fq_pop(q, e, block)]: the argument [e] is what [*e] held before the
    call, the second component of the result what it holds after. *)
Definition fq_pop (e : slot) (block : Z) : M (pt_error * slot) :=
  let ret := PT_SUCCESS in
  pml <- acquire block ;;
  if pml =? 0 then
    let is_empty := 0 in
    r <- fq_is_empty is_empty block ;;
    let is_empty := snd r in
    re <- (if negb (is_empty =? 0) then mreturn (PT_EFQEMPTY, e)
           else
             q <- get_queue ;;
             put_queue (FQ (elements q) (front q) (back q)
                           (u32 (size q - 1)) (max_elements q)) ;;
             q <- get_queue ;;
             let front' := u32 (front q + 1) in
             put_queue (FQ (elements q)
                           (if front' =? max_elements q then 0 else front')
                           (back q) (size q) (max_elements q)) ;;
             q <- get_queue ;;
             e <- load_element (front q) ;;
             mreturn (ret, e)) ;;
    pml <- pthread_mutex_unlock ;;
    mreturn (if negb (pml =? 0) then PT_EPMU else fst re, snd re)
  else
    mreturn (lock_failed block, e).

(** [fq_peek(q, e, block)].  The branch tests [ret], not [pml]. *)
Definition fq_peek (e : slot) (block : Z) : M (pt_error * slot) :=
  let ret := PT_SUCCESS in
  pml <- acquire block ;;
  if pt_is_zero ret then
    let is_empty := 0 in
    r <- fq_is_empty is_empty block ;;
    let is_empty := snd r in
    re <- (if negb (is_empty =? 0) then mreturn (PT_EFQEMPTY, e)
           else
             q <- get_queue ;;
             let tmp := u32 (front q + 1) in
             let tmp := if tmp =? max_elements q then 0 else tmp in
             e <- load_element tmp ;;
             mreturn (ret, e)) ;;
    pml <- pthread_mutex_unlock ;;
    mreturn (if negb (pml =? 0) then PT_EPMU else fst re, snd re)
  else
    mreturn (lock_failed block, e).

(** ** Running operations *)

(** One call on queue [q] whose pthread calls return [rc 0], [rc 1], ...:
    the result, the queue afterwards and the pthread calls made. *)
Definition run {A} (m : M A) (rc : nat -> Z) (q : function_queue)
  : option (A * function_queue * list event) :=
  match m (World q rc []) with
  | Some (a, w) => Some (a, w_queue w, w_trace w)
  | None => None
  end.

(** Every pthread call succeeds. *)
Definition rc_ok : nat -> Z := fun _ => 0.

(** A call of the public interface.  [Pop] and [Peek] are given an
    uninitialised [struct function_queue_element] to fill, as in
    [get_and_run]. *)
Inductive call : Type :=
| Push (e : function_queue_element) (block : Z)
| Pop (block : Z)
| Peek (block : Z).

(** The returned code and the contents of the out-parameter after the call
    ([None] for [Push], which has none). *)
Abbreviation reply := (pt_error * slot)%type.

Definition exec (c : call) (rc : nat -> Z) (q : function_queue)
  : option (reply * function_queue * list event) :=
  match c with
  | Push e block =>
      match run (fq_push e block) rc q with
      | Some (r, q', tr) => Some ((r, None), q', tr)
      | None => None
      end
  | Pop block => run (fq_pop None block) rc q
  | Peek block => run (fq_peek None block) rc q
  end.

(** A sequence of calls, one after the other, each with the return codes
    its own pthread calls receive. *)
Fixpoint run_calls (cs : list (call * (nat -> Z))) (q : function_queue)
  : option (list reply * function_queue) :=
  match cs with
  | [] => Some ([], q)
  | (c, rc) :: cs' =>
      match exec c rc q with
      | Some (r, q', _) =>
          match run_calls cs' q' with
          | Some (rs, q'') => Some (r :: rs, q'')
          | None => None
          end
      | None => None
      end
  end.

(** The queue a successful [fq_init] leaves behind. *)
Definition fresh (n : Z) : function_queue :=
  FQ (Some (replicate (Z.to_nat n) None)) 0 0 0 n.

(** ** Notions used in the statements *)

(** The primitive [acquire] calls. *)
Definition acq (block : Z) : pthread_call :=
  if block =? 0 then Mutex_trylock else Mutex_lock.

(** The index after [i] in a buffer of [n] cells, as the code computes it:
    [if(++i == n) i = 0]. *)
Definition next_index (i n : Z) : Z :=
  if u32 (i + 1) =? n then 0 else u32 (i + 1).

(** The representation invariant, what holds of a queue between calls: the
    buffer has [max_elements]
    cells, [size] is within the capacity, [front] is an index of the buffer
    and [back] is [size] cells further on, modulo the capacity. *)
Definition fq_wf (q : function_queue) : Prop :=
  0 <= max_elements q < UINT_RANGE /\
  (exists l, elements q = Some l /\ Z.of_nat (length l) = max_elements q) /\
  0 <= size q <= max_elements q /\
  ((max_elements q = 0 /\ front q = 0 /\ back q = 0) \/
   (0 <= front q < max_elements q /\
    back q = (front q + size q) mod max_elements q)).

(** The live tasks, oldest first: the [size] cells after [front]. *)
Definition contents (q : function_queue) : list slot :=
  match elements q with
  | Some l =>
      map (fun i => default None
                      (l !! Z.to_nat ((front q + 1 + Z.of_nat i)
                                        mod max_elements q)))
          (seq 0 (Z.to_nat (size q)))
  | None => []
  end.

(** Every pthread call of an invocation succeeds. *)
Definition locks_ok (rc : nat -> Z) : Prop := forall i, rc i = 0.

(** The lock is re-entrant: once the outer acquisition of an invocation has
    succeeded, the nested acquisition by the helper succeeds too. *)
Definition reentrant (rc : nat -> Z) : Prop := rc 0%nat = 0 -> rc 1%nat = 0.

(** The calls that change the queue. *)
Definition push_or_pop (c : call) : Prop :=
  match c with
  | Push _ _ | Pop _ => True
  | Peek _ => False
  end.

(** Call sequences of the test scenarios, every pthread call succeeding:
    pushes of given tasks, pops, peeks (each with its own [block] flag) and
    push/pop rounds. *)
Definition pushes (tbs : list (function_queue_element * Z))
  : list (call * (nat -> Z)) :=
  map (fun tb => (Push (fst tb) (snd tb), rc_ok)) tbs.

Definition pops (bs : list Z) : list (call * (nat -> Z)) :=
  map (fun b => (Pop b, rc_ok)) bs.

Definition peeks (bs : list Z) : list (call * (nat -> Z)) :=
  map (fun b => (Peek b, rc_ok)) bs.

Definition rounds (tbs : list (function_queue_element * Z * Z))
  : list (call * (nat -> Z)) :=
  flat_map (fun x => [(Push (fst (fst x)) (snd (fst x)), rc_ok);
                      (Pop (snd x), rc_ok)]) tbs.

(** A first acquisition that fails with [EBUSY], a last release that fails
    with [EPERM]: oracles of the examples. *)
Definition rc_busy : nat -> Z :=
  fun i => match i with O => 16 | _ => 0 end.

Definition rc_unlock_fails : nat -> Z :=
  fun i => match i with 3%nat => 1 | _ => 0 end.

Definition env_ok : init_env := InitEnv 0 (init_attr 0 0) 0 true 0.

(** The number of the pthread call that is the unlock closing the critical
    section of a call: in [fq_push] the helper always makes two calls
    first; in [fq_pop] and [fq_peek] the helper makes two calls when its
    acquisition succeeds and one when it fails. *)
Definition final_unlock (c : call) (rc : nat -> Z) : nat :=
  match c with
  | Push _ _ => 3%nat
  | Pop _ | Peek _ => if rc 1%nat =? 0 then 3%nat else 2%nat
  end.

(** The oracle [rc] with the return code of call number [n] replaced by 0. *)
Definition patch (rc : nat -> Z) (n : nat) : nat -> Z :=
  fun i => if (i =? n)%nat then 0 else rc i.

(** ** The rest of [function_queue.c] *)

(** [fq_destroy(q)]: [pmd] is what [pthread_mutex_destroy] returns.  The
    buffer is freed and the pointer reset only when the mutex could be
    destroyed. *)
Definition fq_destroy (pmd : Z) (q : function_queue)
  : pt_error * function_queue :=
  let ret := PT_SUCCESS in
  if pmd =? 0
  then (ret, FQ None (front q) (back q) (size q) (max_elements q))
  else (PT_EPMD, q).

(** ** An ideal bounded queue *)

(** What the calls are meant to compute, on the list of live tasks of a
    queue of capacity [N]: the reference the circular buffer is compared
    with. *)
Definition model_step (N : Z) (c : call) (l : list slot)
  : reply * list slot :=
  match c with
  | Push e _ =>
      if Z.of_nat (length l) =? N
      then ((PT_EFQFULL, None), l)
      else ((PT_SUCCESS, None), l ++ [Some e])
  | Pop _ =>
      match l with
      | [] => ((PT_EFQEMPTY, None), l)
      | s :: l' => ((PT_SUCCESS, s), l')
      end
  | Peek _ =>
      match l with
      | [] => ((PT_EFQEMPTY, None), l)
      | s :: _ => ((PT_SUCCESS, s), l)
      end
  end.

Fixpoint model_run (N : Z) (cs : list call) (l : list slot)
  : list reply * list slot :=
  match cs with
  | [] => ([], l)
  | c :: cs' =>
      let (r, l1) := model_step N c l in
      let (rs, l2) := model_run N cs' l1 in
      (r :: rs, l2)
  end.

(** The same call with another [block] flag. *)
Definition with_block (b : Z) (c : call) : call :=
  match c with
  | Push e _ => Push e b
  | Pop _ => Pop b
  | Peek _ => Peek b
  end.

(** Counting in a trace: the acquisitions that succeeded and the unlock
    calls. *)
Definition is_acquired (ev : event) : bool :=
  match ev_call ev with
  | Mutex_lock | Mutex_trylock => ev_rc ev =? 0
  | Mutex_unlock => false
  end.

Definition is_unlock (ev : event) : bool :=
  match ev_call ev with
  | Mutex_unlock => true
  | _ => false
  end.

Definition is_released (ev : event) : bool :=
  match ev_call ev with
  | Mutex_unlock => ev_rc ev =? 0
  | _ => false
  end.

Definition acquired (tr : list event) : nat :=
  length (List.filter is_acquired tr).
Definition released (tr : list event) : nat :=
  length (List.filter is_released tr).
Definition unlock_calls (tr : list event) : nat :=
  length (List.filter is_unlock tr).

(** ** threading_queue.c *)

(** One turn of the [do ... while(1)] of [get_and_run]: [sched_yield()]
    (no errors, no effect on the queue), a blocking [fq_pop] into the local
    [fqe], and [fqe.func(fqe.arg)] when the pop returned 0.  [fqe] is what
    the local holds before the turn; the result is what it holds after,
    the queue, and the task that was run, if any.  A call through a
    [fqe] that was never written is undefined.  What the task itself does
    is outside the model: it is taken not to touch the queue. *)
Definition get_and_run_turn (fqe : slot) (rc : nat -> Z) (q : function_queue)
  : option (slot * function_queue * option function_queue_element) :=
  match run (fq_pop fqe 1) rc q with
  | Some ((r, fqe'), q', _) =>
      if pt_is_zero r then
        match fqe' with
        | Some t => Some (fqe', q', Some t)
        | None => None
        end
      else Some (fqe', q', None)
  | None => None
  end.

(** The first turns of [get_and_run], one per oracle of [rcs]: the tasks
    run, in order, the local and the queue afterwards.  The loop itself
    never ends. *)
Fixpoint get_and_run (rcs : list (nat -> Z)) (fqe : slot) (q : function_queue)
  : option (list function_queue_element * slot * function_queue) :=
  match rcs with
  | [] => Some ([], fqe, q)
  | rc :: rcs' =>
      match get_and_run_turn fqe rc q with
      | Some (fqe', q', ran) =>
          match get_and_run rcs' fqe' q' with
          | Some (log, fqe'', q'') =>
              Some (match ran with Some t => t :: log | None => log end,
                    fqe'', q'')
          | None => None
          end
      | None => None
      end
  end.

(** Modelled from the spec: [struct threading_queue] and
    [struct threading_queue_startup_info] are declared in
    [threading_queue.h], which is not among the sources.  The fields are
    the ones [tq_init] uses.  [fq] is the address of the queue; a cell of
    [threads] is [None] until [pthread_create] has stored a thread id in
    it. *)
Record threading_queue_startup_info : Type := TQSI {
  si_fq : Z;
  si_max_threads : Z
}.

(** The pointer [tq->threads]: null, a live block, or a block that has
    been freed ([tq_destroy] does not reset the pointer). *)
Inductive handle_block : Type :=
| Null_block
| Live_block (ths : list (option Z))
| Freed_block.

Record threading_queue : Type := TQ {
  fq : Z;
  max_threads : Z;
  threads : handle_block
}.

(** [ENOMEM] of [errno.h], with its Linux value; only that it is not 0
    matters below. *)
Definition ENOMEM : Z := 12.

(** The largest [int], the type of [ret] in [tq_start]. *)
Definition INT_MAX : Z := 2 ^ 31 - 1.

(** [tq_init(tq, tqsi)]: [ok] tells whether [malloc] returned a block. *)
Definition tq_init (ok : bool) (tqsi : threading_queue_startup_info)
  : Z * threading_queue :=
  let ret := 0 in
  let ths := if ok
             then Live_block (replicate (Z.to_nat (si_max_threads tqsi)) None)
             else Null_block in
  let tq := TQ (si_fq tqsi) (si_max_threads tqsi) ths in
  (match ths with Null_block => ENOMEM | _ => ret end, tq).

(** [tq_destroy(tq)]: [free(tq->threads)], the pointer is left as it is.
    Freeing a block twice is undefined. *)
Definition tq_destroy (tq : threading_queue) : option (Z * threading_queue) :=
  match threads tq with
  | Null_block => Some (0, tq)
  | Live_block _ => Some (0, TQ (fq tq) (max_threads tq) Freed_block)
  | Freed_block => None
  end.

(** The [for] loop of [tq_start] from index [i] on, [n] turns to go:
    [create i] is what [pthread_create] returns for cell [i] and the
    thread id it stores there on success.  [ret] is an [int]: counting past
    [INT_MAX] is undefined, as is a cell outside the block. *)
Fixpoint tq_start_loop (create : nat -> Z * Z) (n i : nat)
    (ths : list (option Z)) (ret : Z) : option (list (option Z) * Z) :=
  match n with
  | O => Some (ths, ret)
  | S n' =>
      if (i <? length ths)%nat then
        if fst (create i) =? 0 then
          if ret + 1 <=? INT_MAX
          then tq_start_loop create n' (S i)
                             (<[i := Some (snd (create i))]> ths) (ret + 1)
          else None
        else tq_start_loop create n' (S i) ths ret
      else None
  end.

(** [tq_start(tq)]. *)
Definition tq_start (create : nat -> Z * Z) (tq : threading_queue)
  : option (Z * threading_queue) :=
  match Z.to_nat (max_threads tq) with
  | O => Some (0, tq)
  | n =>
      match threads tq with
      | Live_block ths =>
          match tq_start_loop create n 0 ths 0 with
          | Some (ths', ret) =>
              Some (ret, TQ (fq tq) (max_threads tq) (Live_block ths'))
          | None => None
          end
      | _ => None
      end
  end.

(** The [for] loop of [tq_stop]: the thread ids passed to
    [pthread_cancel], in order.  Passing a cell that was never written (an
    indeterminate [pthread_t]) is undefined, as is a cell outside the
    block.  What [pthread_cancel] returns is ignored. *)
Fixpoint tq_stop_loop (n i : nat) (ths : list (option Z))
  : option (list Z) :=
  match n with
  | O => Some []
  | S n' =>
      match ths !! i with
      | Some (Some h) =>
          match tq_stop_loop n' (S i) ths with
          | Some hs => Some (h :: hs)
          | None => None
          end
      | _ => None
      end
  end.

(** [tq_stop(tq)]: the returned code and the thread ids cancelled. *)
Definition tq_stop (tq : threading_queue) : option (Z * list Z) :=
  match Z.to_nat (max_threads tq) with
  | O => Some (0, [])
  | n =>
      match threads tq with
      | Live_block ths =>
          match tq_stop_loop n 0 ths with
          | Some hs => Some (0, hs)
          | None => None
          end
      | _ => None
      end
  end.

(** What [tq_start] is expected to leave in cell [j]: the thread id if
    [pthread_create] succeeded for it, nothing otherwise. *)
Definition spawn_result (create : nat -> Z * Z) (j : nat) : option Z :=
  if fst (create j) =? 0 then Some (snd (create j)) else None.

(** The cells among the first [n] for which [pthread_create] succeeds. *)
Definition spawned (create : nat -> Z * Z) (i n : nat) : list nat :=
  List.filter (fun j => fst (create j) =? 0) (seq i n).

(** ** Proof automation *)

(** Unfolding the embedded operations down to the state passing. *)
Ltac unfold_ops :=
  unfold run, fq_push, fq_pop, fq_peek, fq_is_full, fq_is_empty, acquire,
    pthread_mutex_lock, pthread_mutex_trylock, pthread_mutex_unlock,
    pthread, load_element, store_element, get_queue, put_queue,
    mbind', mreturn, lock_failed, acq, next_index, pt_is_zero.

(** Evaluation that leaves the arithmetic and the buffer accesses alone. *)
Ltac run_simpl :=
  cbn -[Nat.ltb Z.eqb Z.to_nat u32 Z.add Z.sub Z.b2z];
  try change (0 =? 0) with true;
  try change (1 =? 0) with false;
  cbn -[Nat.ltb Z.eqb Z.to_nat u32 Z.add Z.sub Z.b2z].

(** Case analysis along the branches of an operation, in the goal. *)
Ltac run_cases :=
  run_simpl;
  repeat match goal with
    | |- context [Z.b2z (?a =? ?b)] =>
        destruct (a =? b) eqn:?; cbn [Z.b2z]; run_simpl
    | |- context [if negb (?c =? 0) then _ else _] =>
        destruct (c =? 0) eqn:?; run_simpl
    | |- context [if (?a =? ?b) then _ else _] =>
        destruct (a =? b) eqn:?; run_simpl
    | |- context [match elements ?q with _ => _ end] =>
        destruct (elements q) eqn:?; run_simpl
    | |- context [if (?a <? ?b)%nat then _ else _] =>
        destruct (a <? b)%nat eqn:?; run_simpl
    | |- context [match ?l !! ?i with _ => _ end] =>
        destruct (l !! i) eqn:?; run_simpl
    end;
  try reflexivity; try discriminate.

(** The same along a hypothesis. *)
Ltac split_run H :=
  repeat match type of H with
    | context [if ?a =? ?b then _ else _] => destruct (a =? b) eqn:?
    | context [match elements ?q with _ => _ end] => destruct (elements q) eqn:?
    | context [if (?a <? ?b)%nat then _ else _] => destruct (a <? b)%nat eqn:?
    | context [match ?l !! ?i with _ => _ end] => destruct (l !! i) eqn:?
    end.

Ltac ok_contra :=
  match goal with
  | H : (?x =? 0) = true, Hu : ?x <> 0 |- _ =>
      apply Z.eqb_eq in H; contradiction
  end.

Ltac rewrite_eqs :=
  repeat match goal with
    | H : (_ =? _) = _ |- _ => rewrite H
    | H : elements _ = _ |- _ => rewrite H
    | H : (_ <? _)%nat = _ |- _ => rewrite H
    | H : _ !! _ = _ |- _ => rewrite H
    end.

(** ** What one call computes *)

(** Each operation run from a given queue, as a function of the return
    codes of its pthread calls.  Call 0 is the acquisition of the
    operation itself; in [fq_push], [fq_pop] and [fq_peek] call 1 is the
    acquisition inside the helper. *)
Lemma fq_push_run e block rc q :
  run (fq_push e block) rc q =
  if rc 0%nat =? 0 then
    let tr := [Ev (acq block) (rc 0%nat); Ev (acq block) (rc 1%nat);
               Ev Mutex_unlock (rc 2%nat); Ev Mutex_unlock (rc 3%nat)] in
    let code r := if rc 3%nat =? 0 then r else PT_EPMU in
    if size q =? max_elements q then Some (code PT_EFQFULL, q, tr)
    else
      let nb := next_index (back q) (max_elements q) in
      match elements q with
      | Some l =>
          if (Z.to_nat nb <? length l)%nat
          then Some (code PT_SUCCESS,
                     FQ (Some (<[Z.to_nat nb := Some e]> l)) (front q) nb
                        (u32 (size q + 1)) (max_elements q),
                     tr)
          else None
      | None => None
      end
  else Some (lock_failed block, q, [Ev (acq block) (rc 0%nat)]).
Proof.
  unfold_ops.
  destruct (block =? 0); run_cases.
Qed.

Lemma fq_pop_run e0 block rc q :
  run (fq_pop e0 block) rc q =
  if rc 0%nat =? 0 then
    let nf := next_index (front q) (max_elements q) in
    let body (code : pt_error -> pt_error) tr :=
      match elements q with
      | Some l =>
          match l !! Z.to_nat nf with
          | Some s => Some ((code PT_SUCCESS, s),
                            FQ (Some l) nf (back q) (u32 (size q - 1))
                               (max_elements q),
                            tr)
          | None => None
          end
      | None => None
      end in
    if rc 1%nat =? 0 then
      let tr := [Ev (acq block) (rc 0%nat); Ev (acq block) (rc 1%nat);
                 Ev Mutex_unlock (rc 2%nat); Ev Mutex_unlock (rc 3%nat)] in
      let code r := if rc 3%nat =? 0 then r else PT_EPMU in
      if size q =? 0 then Some ((code PT_EFQEMPTY, e0), q, tr)
      else body code tr
    else
      let tr := [Ev (acq block) (rc 0%nat); Ev (acq block) (rc 1%nat);
                 Ev Mutex_unlock (rc 2%nat)] in
      body (fun r => if rc 2%nat =? 0 then r else PT_EPMU) tr
  else Some ((lock_failed block, e0), q, [Ev (acq block) (rc 0%nat)]).
Proof.
  unfold_ops.
  destruct (block =? 0); run_cases.
Qed.

Lemma fq_peek_run e0 block rc q :
  run (fq_peek e0 block) rc q =
  let tmp := next_index (front q) (max_elements q) in
  let body (code : pt_error -> pt_error) tr :=
    match elements q with
    | Some l =>
        match l !! Z.to_nat tmp with
        | Some s => Some ((code PT_SUCCESS, s), q, tr)
        | None => None
        end
    | None => None
    end in
  if rc 1%nat =? 0 then
    let tr := [Ev (acq block) (rc 0%nat); Ev (acq block) (rc 1%nat);
               Ev Mutex_unlock (rc 2%nat); Ev Mutex_unlock (rc 3%nat)] in
    let code r := if rc 3%nat =? 0 then r else PT_EPMU in
    if size q =? 0 then Some ((code PT_EFQEMPTY, e0), q, tr)
    else body code tr
  else
    let tr := [Ev (acq block) (rc 0%nat); Ev (acq block) (rc 1%nat);
               Ev Mutex_unlock (rc 2%nat)] in
    body (fun r => if rc 2%nat =? 0 then r else PT_EPMU) tr.
Proof.
  unfold_ops.
  destruct (block =? 0); run_cases.
Qed.

Lemma fq_is_full_run v block rc q :
  run (fq_is_full v block) rc q =
  Some ((if rc 1%nat =? 0 then PT_SUCCESS else PT_EPMU,
         Z.b2z (size q =? max_elements q)),
        q,
        [Ev (acq block) (rc 0%nat); Ev Mutex_unlock (rc 1%nat)]).
Proof.
  unfold_ops.
  destruct (block =? 0); run_cases.
Qed.

Lemma fq_is_empty_run v block rc q :
  run (fq_is_empty v block) rc q =
  if rc 0%nat =? 0
  then Some ((if rc 1%nat =? 0 then PT_SUCCESS else PT_EPMU,
              Z.b2z (size q =? 0)),
             q,
             [Ev (acq block) (rc 0%nat); Ev Mutex_unlock (rc 1%nat)])
  else Some ((lock_failed block, v), q, [Ev (acq block) (rc 0%nat)]).
Proof.
  unfold_ops.
  destruct (block =? 0); run_cases.
Qed.

(** ** Index arithmetic and the invariant *)

Lemma u32_small x : 0 <= x < UINT_RANGE -> u32 x = x.
Proof. intros H. unfold u32. apply Z.mod_small, H. Qed.

Lemma next_index_mod i n :
  0 <= i < n -> n < UINT_RANGE -> next_index i n = (i + 1) mod n.
Proof.
  intros Hi Hn. unfold next_index.
  rewrite u32_small by lia.
  destruct (Z.eqb_spec (i + 1) n) as [E|E].
  - rewrite E. symmetry. apply Z_mod_same_full.
  - symmetry. apply Z.mod_small. lia.
Qed.

Lemma next_index_range i n :
  0 <= i < n -> n < UINT_RANGE -> 0 <= next_index i n < n.
Proof.
  intros Hi Hn. rewrite next_index_mod by assumption.
  apply Z.mod_pos_bound. lia.
Qed.

Lemma mod_succ_l a n : 0 < n -> (a mod n + 1) mod n = (a + 1) mod n.
Proof. intros Hn. apply Zplus_mod_idemp_l. Qed.

(** Two cells less than a capacity apart are different cells. *)
Lemma mod_apart f i j n :
  0 < n -> 0 <= i -> i < j -> j - i < n -> (f + i) mod n <> (f + j) mod n.
Proof.
  intros Hn Hi Hij Hd E.
  assert (H : (f + j - (f + i)) mod n = 0).
  { rewrite Zminus_mod, E, Z.sub_diag. apply Z.mod_0_l. lia. }
  replace (f + j - (f + i)) with (j - i) in H by lia.
  rewrite Z.mod_small in H; lia.
Qed.

Lemma fresh_wf n : 0 <= n < UINT_RANGE -> fq_wf (fresh n).
Proof.
  intros Hn. unfold fq_wf, fresh. cbn.
  split; [exact Hn|]. split.
  - eexists. split; [reflexivity|]. rewrite length_replicate. lia.
  - split; [lia|].
    destruct (Z.eq_dec n 0) as [->|Hne]; [left; auto|].
    right. split; [lia|]. rewrite Z.add_0_r. rewrite Z.mod_0_l; lia.
Qed.

(** ** One push, one pop on a well-formed queue *)

(** The queue after a push that found room. *)
Lemma push_step q e block rc :
  fq_wf q -> rc 0%nat = 0 -> size q < max_elements q ->
  exists l tr,
    elements q = Some l /\
    run (fq_push e block) rc q =
    Some (if rc 3%nat =? 0 then PT_SUCCESS else PT_EPMU,
          FQ (Some (<[Z.to_nat ((back q + 1) mod max_elements q) := Some e]> l))
             (front q) ((back q + 1) mod max_elements q) (size q + 1)
             (max_elements q),
          tr).
Proof.
  intros (Hmax & (l & Hl & Hlen) & Hsz & Hidx) Hrc Hroom.
  destruct Hidx as [(H0 & _)|(Hf & Hb)]; [lia|].
  assert (Hbr : 0 <= back q < max_elements q)
    by (rewrite Hb; apply Z.mod_pos_bound; lia).
  exists l. eexists. split; [exact Hl|].
  rewrite fq_push_run, Hrc, Hl. cbn -[Nat.ltb Z.to_nat u32].
  destruct (Z.eqb_spec (size q) (max_elements q)) as [E|_]; [lia|].
  rewrite next_index_mod by lia.
  rewrite (u32_small (size q + 1)) by (unfold UINT_RANGE in *; lia).
  assert (Hn : 0 <= (back q + 1) mod max_elements q < max_elements q)
    by (apply Z.mod_pos_bound; lia).
  destruct (Nat.ltb_spec (Z.to_nat ((back q + 1) mod max_elements q)) (length l))
    as [_|Hge]; [reflexivity|lia].
Qed.

(** The queue after a pop that found a task. *)
Lemma pop_step q e0 block rc :
  fq_wf q -> rc 0%nat = 0 -> 0 < size q ->
  exists l s tr,
    elements q = Some l /\
    l !! Z.to_nat ((front q + 1) mod max_elements q) = Some s /\
    run (fq_pop e0 block) rc q =
    Some ((if (if rc 1%nat =? 0 then rc 3%nat else rc 2%nat) =? 0
           then PT_SUCCESS else PT_EPMU, s),
          FQ (Some l) ((front q + 1) mod max_elements q) (back q)
             (size q - 1) (max_elements q),
          tr).
Proof.
  intros (Hmax & (l & Hl & Hlen) & Hsz & Hidx) Hrc Hsome.
  destruct Hidx as [(H0 & _)|(Hf & Hb)]; [lia|].
  assert (Hn : 0 <= (front q + 1) mod max_elements q < max_elements q)
    by (apply Z.mod_pos_bound; lia).
  destruct (lookup_lt_is_Some_2 l (Z.to_nat ((front q + 1) mod max_elements q)))
    as [s Hs]; [lia|].
  exists l, s.
  rewrite fq_pop_run, Hrc, Hl. cbn -[Z.to_nat u32].
  rewrite next_index_mod by lia.
  rewrite (u32_small (size q - 1)) by (unfold UINT_RANGE in *; lia).
  rewrite Hs.
  destruct (Z.eqb_spec (size q) 0) as [E|_]; [lia|].
  destruct (rc 1%nat =? 0); eexists; (split; [reflexivity|]);
    (split; reflexivity).
Qed.

Lemma pushed_wf q l e :
  fq_wf q -> elements q = Some l -> size q < max_elements q ->
  fq_wf (FQ (Some (<[Z.to_nat ((back q + 1) mod max_elements q) := Some e]> l))
            (front q) ((back q + 1) mod max_elements q) (size q + 1)
            (max_elements q)).
Proof.
  intros (Hmax & (l' & Hl & Hlen) & Hsz & Hidx) El Hroom.
  rewrite El in Hl. injection Hl as <-.
  destruct Hidx as [(H0 & _)|(Hf & Hb)]; [lia|].
  unfold fq_wf. cbn.
  split; [exact Hmax|]. split.
  - eexists. split; [reflexivity|]. rewrite length_insert. exact Hlen.
  - split; [lia|]. right. split; [exact Hf|].
    rewrite Hb, mod_succ_l by lia. f_equal. lia.
Qed.

Lemma popped_wf q l :
  fq_wf q -> elements q = Some l -> 0 < size q ->
  fq_wf (FQ (Some l) ((front q + 1) mod max_elements q) (back q)
            (size q - 1) (max_elements q)).
Proof.
  intros (Hmax & (l' & Hl & Hlen) & Hsz & Hidx) El Hsome.
  rewrite El in Hl. injection Hl as <-.
  destruct Hidx as [(H0 & _)|(Hf & Hb)]; [lia|].
  unfold fq_wf. cbn.
  split; [exact Hmax|]. split.
  - eexists. split; [reflexivity|]. exact Hlen.
  - split; [lia|]. right. split; [apply Z.mod_pos_bound; lia|].
    rewrite Hb, Zplus_mod_idemp_l. f_equal. lia.
Qed.

(** ** The buffer as a FIFO list *)

Lemma contents_length q :
  fq_wf q -> length (contents q) = Z.to_nat (size q).
Proof.
  intros (_ & (l & Hl & _) & _). unfold contents. rewrite Hl.
  rewrite length_map. apply length_seq.
Qed.

(** A push appends to the live tasks. *)
Lemma pushed_contents q l e :
  fq_wf q -> elements q = Some l -> size q < max_elements q ->
  contents (FQ (Some (<[Z.to_nat ((back q + 1) mod max_elements q) := Some e]> l))
               (front q) ((back q + 1) mod max_elements q) (size q + 1)
               (max_elements q))
  = contents q ++ [Some e].
Proof.
  intros (Hmax & (l' & Hl & Hlen) & Hsz & Hidx) El Hroom.
  rewrite El in Hl. injection Hl as <-.
  destruct Hidx as [(H0 & _)|(Hf & Hb)]; [lia|].
  unfold contents. cbn. rewrite El.
  replace (Z.to_nat (size q + 1)) with (S (Z.to_nat (size q))) by lia.
  rewrite seq_S, map_app. cbn.
  assert (Hnb : (back q + 1) mod max_elements q
                = (front q + 1 + size q) mod max_elements q).
  { rewrite Hb, mod_succ_l by lia. f_equal. lia. }
  rewrite Hnb. f_equal.
  - apply map_ext_in. intros i Hi. apply in_seq in Hi.
    rewrite list_lookup_insert_ne; [reflexivity|].
    intros E. apply Z2Nat.inj in E;
      try (apply Z.mod_pos_bound; lia).
    symmetry in E. revert E. apply mod_apart; lia.
  - rewrite Z2Nat.id by lia.
    rewrite list_lookup_insert_eq; [reflexivity|].
    assert (0 <= (front q + 1 + size q) mod max_elements q < max_elements q)
      by (apply Z.mod_pos_bound; lia).
    lia.
Qed.

(** A pop removes the oldest live task. *)
Lemma popped_contents q l s :
  fq_wf q -> elements q = Some l -> 0 < size q ->
  l !! Z.to_nat ((front q + 1) mod max_elements q) = Some s ->
  contents q
  = s :: contents (FQ (Some l) ((front q + 1) mod max_elements q) (back q)
                      (size q - 1) (max_elements q)).
Proof.
  intros (Hmax & (l' & Hl & Hlen) & Hsz & Hidx) El Hsome Hs.
  destruct Hidx as [(H0 & _)|(Hf & Hb)]; [lia|].
  unfold contents. cbn. rewrite El.
  replace (Z.to_nat (size q)) with (S (Z.to_nat (size q - 1))) by lia.
  cbn [seq map]. f_equal.
  - rewrite Z.add_0_r, Hs. reflexivity.
  - rewrite <- seq_shift, map_map. apply map_ext. intros i.
    do 2 f_equal.
    replace ((front q + 1) mod max_elements q + 1 + Z.of_nat i)
      with ((front q + 1) mod max_elements q + (1 + Z.of_nat i)) by lia.
    rewrite Zplus_mod_idemp_l. do 2 f_equal. lia.
Qed.

(** ** Calls whose pthread calls all succeed *)

Lemma exec_push_ok q e block rc :
  fq_wf q -> locks_ok rc -> size q < max_elements q ->
  exists q' tr,
    exec (Push e block) rc q = Some ((PT_SUCCESS, None), q', tr) /\
    fq_wf q' /\
    max_elements q' = max_elements q /\
    contents q' = contents q ++ [Some e] /\
    size q' = size q + 1 /\
    front q' = front q /\
    back q' = (back q + 1) mod max_elements q.
Proof.
  intros Hwf Hrc Hroom.
  destruct (push_step q e block rc Hwf (Hrc 0%nat) Hroom) as (l & tr & El & Hrun).
  rewrite (Hrc 3%nat) in Hrun. cbn in Hrun.
  eexists. exists tr. unfold exec. rewrite Hrun.
  split; [reflexivity|].
  split; [apply pushed_wf; assumption|].
  split; [reflexivity|].
  split; [apply pushed_contents; assumption|].
  cbn. auto.
Qed.

Lemma exec_pop_ok q block rc :
  fq_wf q -> locks_ok rc -> 0 < size q ->
  exists s q' tr,
    exec (Pop block) rc q = Some ((PT_SUCCESS, s), q', tr) /\
    fq_wf q' /\
    max_elements q' = max_elements q /\
    contents q = s :: contents q' /\
    size q' = size q - 1 /\
    front q' = (front q + 1) mod max_elements q /\
    back q' = back q.
Proof.
  intros Hwf Hrc Hsome.
  destruct (pop_step q None block rc Hwf (Hrc 0%nat) Hsome)
    as (l & s & tr & El & Hs & Hrun).
  rewrite (Hrc 1%nat), (Hrc 3%nat) in Hrun. cbn in Hrun.
  exists s. eexists. exists tr. unfold exec. rewrite Hrun.
  split; [reflexivity|].
  split; [apply popped_wf; assumption|].
  split; [reflexivity|].
  split; [apply popped_contents; assumption|].
  cbn. auto.
Qed.

Lemma run_calls_app cs1 cs2 q :
  run_calls (cs1 ++ cs2) q =
  match run_calls cs1 q with
  | Some (rs1, q1) =>
      match run_calls cs2 q1 with
      | Some (rs2, q2) => Some (rs1 ++ rs2, q2)
      | None => None
      end
  | None => None
  end.
Proof.
  revert q. induction cs1 as [|[c rc] cs1 IH]; intros q; cbn.
  - destruct (run_calls cs2 q) as [[rs2 q2]|]; reflexivity.
  - destruct (exec c rc q) as [[[r q'] tr]|]; [|reflexivity].
    rewrite IH.
    destruct (run_calls cs1 q') as [[rs1 q1]|]; [|reflexivity].
    destruct (run_calls cs2 q1) as [[rs2 q2]|]; reflexivity.
Qed.

Lemma exec_preserves_wf c rc q :
  fq_wf q -> push_or_pop c -> reentrant rc ->
  exists r q' tr,
    exec c rc q = Some (r, q', tr) /\ fq_wf q' /\
    max_elements q' = max_elements q.
Proof.
  intros Hwf Hc Hre. destruct c as [e block|block|block]; [| |destruct Hc].
  - unfold exec. destruct (Z.eqb_spec (rc 0%nat) 0) as [E0|N0].
    + destruct (Z.eqb_spec (size q) (max_elements q)) as [Efull|Nfull].
      * rewrite fq_push_run.
        destruct (Z.eqb_spec (rc 0%nat) 0); [|contradiction].
        destruct (Z.eqb_spec (size q) (max_elements q)); [|contradiction].
        cbn. eauto 8.
      * assert (Hroom : size q < max_elements q)
          by (destruct Hwf as (_ & _ & ? & _); lia).
        destruct (push_step q e block rc Hwf E0 Hroom) as (l & tr & El & ->).
        do 3 eexists. split; [reflexivity|].
        split; [apply pushed_wf; assumption|reflexivity].
    + rewrite fq_push_run.
      destruct (Z.eqb_spec (rc 0%nat) 0); [contradiction|]. eauto 8.
  - unfold exec. destruct (Z.eqb_spec (rc 0%nat) 0) as [E0|N0].
    + destruct (Z.eqb_spec (size q) 0) as [Eempty|Nempty].
      * rewrite fq_pop_run, E0, (Hre E0), Eempty. cbn. eauto 8.
      * assert (Hsome : 0 < size q)
          by (destruct Hwf as (_ & _ & ? & _); lia).
        destruct (pop_step q None block rc Hwf E0 Hsome)
          as (l & s & tr & El & Hs & ->).
        do 3 eexists. split; [reflexivity|].
        split; [apply popped_wf; assumption|reflexivity].
    + rewrite fq_pop_run.
      destruct (Z.eqb_spec (rc 0%nat) 0); [contradiction|]. eauto 8.
Qed.

Lemma fq_init_success env q0 n q :
  fq_init env q0 n = (PT_SUCCESS, q) -> q = fresh n.
Proof.
  unfold fq_init, malloc, fresh.
  destruct (once_rc env =? 0); [|discriminate].
  destruct (init (init_attr_ret env) =? 0); [|discriminate].
  destruct (settype (init_attr_ret env) =? 0); [|discriminate].
  destruct (mutex_init_rc env =? 0); [|discriminate].
  destruct (malloc_ok env); cbn.
  - intros [= <-]. reflexivity.
  - destruct (mutex_destroy_rc env =? 0); discriminate.
Qed.

(** ** Properties of the specification *)

(** C3.  With the lock calls succeeding, a push on a queue whose [size]
    equals [max_elements] returns [PT_EFQFULL] and leaves the whole queue
    (size, front, back and every cell) as it was; on a well-formed queue
    with [size < max_elements] it returns [PT_SUCCESS], adds one to [size],
    moves [back] to [(back + 1) mod max_elements], keeps [front], and
    writes the task into the cell at the new [back], inside the buffer. *)
Theorem fq_push_full_or_stored q e block rc :
  locks_ok rc ->
  (size q = max_elements q ->
   exists tr, run (fq_push e block) rc q = Some (PT_EFQFULL, q, tr)) /\
  (fq_wf q -> size q < max_elements q ->
   exists l q' tr,
     elements q = Some l /\
     run (fq_push e block) rc q = Some (PT_SUCCESS, q', tr) /\
     size q' = size q + 1 /\
     back q' = (back q + 1) mod max_elements q /\
     front q' = front q /\
     max_elements q' = max_elements q /\
     (Z.to_nat (back q') < length l)%nat /\
     elements q' = Some (<[Z.to_nat (back q') := Some e]> l)).
Proof.
  intros Hrc. split.
  - intros Hfull. rewrite fq_push_run, (Hrc 0%nat), (Hrc 3%nat), Hfull.
    cbn. rewrite Z.eqb_refl. eauto.
  - intros Hwf Hroom.
    destruct (push_step q e block rc Hwf (Hrc 0%nat) Hroom) as (l & tr & El & Hrun).
    rewrite (Hrc 3%nat) in Hrun. cbn in Hrun.
    exists l. eexists. exists tr.
    split; [exact El|]. split; [exact Hrun|]. cbn.
    repeat (split; [reflexivity|]).
    split; [|reflexivity].
    destruct Hwf as (Hmax & (l' & Hl & Hlen) & Hsz & _).
    rewrite El in Hl. injection Hl as <-.
    assert (0 <= (back q + 1) mod max_elements q < max_elements q)
      by (apply Z.mod_pos_bound; lia).
    lia.
Qed.

Lemma fq_push_full_or_stored_witness :
  (exists tr, run (fq_push (FQE 7 8) 1) rc_ok (FQ (Some [Some (FQE 1 2)]) 0 0 1 1)
              = Some (PT_EFQFULL, FQ (Some [Some (FQE 1 2)]) 0 0 1 1, tr)) /\
  (exists q' tr, run (fq_push (FQE 7 8) 0) rc_ok (fresh 3)
                 = Some (PT_SUCCESS, q', tr) /\
                 size q' = 1 /\ back q' = 1 /\
                 elements q' = Some [None; Some (FQE 7 8); None]).
Proof.
  split.
  - apply (fq_push_full_or_stored (FQ (Some [Some (FQE 1 2)]) 0 0 1 1)
             (FQE 7 8) 1 rc_ok); [intros i; reflexivity|reflexivity].
  - destruct (fq_push_full_or_stored (fresh 3) (FQE 7 8) 0 rc_ok) as [_ H];
      [intros i; reflexivity|].
    destruct H as (l & q' & tr & El & Hrun & Hs & Hb & _ & _ & _ & Hel).
    + apply fresh_wf. unfold UINT_RANGE. lia.
    + cbn. lia.
    + exists q', tr. injection El as <-.
      split; [exact Hrun|]. split; [exact Hs|]. split; [exact Hb|].
      rewrite Hel, Hb. reflexivity.
Defined.

(** C4.  With the lock calls succeeding, a pop on a queue whose [size] is 0
    returns [PT_EFQEMPTY] and leaves the whole queue (and the caller's
    element) as it was; on a well-formed queue with [size > 0] it returns
    [PT_SUCCESS], takes one from [size], moves [front] to
    [(front + 1) mod max_elements], keeps [back] and the buffer, and hands
    out the cell at the new [front]. *)
Theorem fq_pop_empty_or_taken q e0 block rc :
  locks_ok rc ->
  (size q = 0 ->
   exists tr, run (fq_pop e0 block) rc q = Some ((PT_EFQEMPTY, e0), q, tr)) /\
  (fq_wf q -> 0 < size q ->
   exists l s q' tr,
     elements q = Some l /\
     run (fq_pop e0 block) rc q = Some ((PT_SUCCESS, s), q', tr) /\
     size q' = size q - 1 /\
     front q' = (front q + 1) mod max_elements q /\
     back q' = back q /\
     max_elements q' = max_elements q /\
     elements q' = Some l /\
     l !! Z.to_nat (front q') = Some s).
Proof.
  intros Hrc. split.
  - intros Hempty.
    rewrite fq_pop_run, (Hrc 0%nat), (Hrc 1%nat), (Hrc 3%nat), Hempty.
    cbn. eauto.
  - intros Hwf Hsome.
    destruct (pop_step q e0 block rc Hwf (Hrc 0%nat) Hsome)
      as (l & s & tr & El & Hs & Hrun).
    rewrite (Hrc 1%nat), (Hrc 3%nat) in Hrun. cbn in Hrun.
    exists l, s. eexists. exists tr.
    split; [exact El|]. split; [exact Hrun|]. cbn.
    repeat (split; [reflexivity|]). exact Hs.
Qed.

Lemma fq_pop_empty_or_taken_witness :
  (exists tr, run (fq_pop (Some (FQE 9 9)) 1) rc_ok (fresh 2)
              = Some ((PT_EFQEMPTY, Some (FQE 9 9)), fresh 2, tr)) /\
  (exists q' tr,
     run (fq_pop None 0) rc_ok (FQ (Some [None; Some (FQE 1 2)]) 0 1 1 2)
     = Some ((PT_SUCCESS, Some (FQE 1 2)), q', tr) /\
     size q' = 0 /\ front q' = 1).
Proof.
  split.
  - apply (fq_pop_empty_or_taken (fresh 2) (Some (FQE 9 9)) 1 rc_ok);
      [intros i; reflexivity|reflexivity].
  - destruct (fq_pop_empty_or_taken (FQ (Some [None; Some (FQE 1 2)]) 0 1 1 2)
                None 0 rc_ok) as [_ H]; [intros i; reflexivity|].
    destruct H as (l & s & q' & tr & El & Hrun & Hs & Hf & _ & _ & _ & Hl).
    + unfold fq_wf, UINT_RANGE. cbn.
      split; [lia|]. split; [eauto|]. split; [lia|]. right. split; [lia|reflexivity].
    + cbn. lia.
    + exists q', tr. injection El as <-.
      rewrite Hf in Hl. cbn in Hl. injection Hl as <-.
      split; [exact Hrun|]. split; [exact Hs|exact Hf].
Defined.

Lemma rc_ok_locks_ok : locks_ok rc_ok.
Proof. intros i. reflexivity. Qed.

Lemma run_calls_preserve_wf cs q :
  fq_wf q ->
  Forall (fun c => push_or_pop (fst c) /\ reentrant (snd c)) cs ->
  exists rs q',
    run_calls cs q = Some (rs, q') /\ fq_wf q' /\
    max_elements q' = max_elements q.
Proof.
  intros Hwf Hcs. revert q Hwf.
  induction Hcs as [|[c rc] cs [Hc Hre] _ IH]; intros q Hwf.
  - exists [], q. auto.
  - cbn in Hc, Hre.
    destruct (exec_preserves_wf c rc q Hwf Hc Hre) as (r & q1 & tr & E & Hwf1 & Hm1).
    destruct (IH q1 Hwf1) as (rs & q' & E' & Hwf' & Hm').
    exists (r :: rs), q'. cbn. rewrite E, E'.
    split; [reflexivity|]. split; [exact Hwf'|congruence].
Qed.

(** C5.  On a queue that [fq_init] constructed with capacity [N], after
    each call of any sequence of pushes and pops (blocking or not, with
    any outcomes of the lock and unlock calls, the lock being re-entrant)
    the calls have returned and [0 <= size <= N]. *)
Theorem size_within_capacity env q0 N q cs n :
  0 <= N < UINT_RANGE ->
  fq_init env q0 N = (PT_SUCCESS, q) ->
  Forall (fun c => push_or_pop (fst c) /\ reentrant (snd c)) cs ->
  exists rs q',
    run_calls (take n cs) q = Some (rs, q') /\
    0 <= size q' <= N /\ max_elements q' = N.
Proof.
  intros HN Hinit Hcs.
  apply fq_init_success in Hinit. subst q.
  destruct (run_calls_preserve_wf (take n cs) (fresh N)) as (rs & q' & E & Hwf & Hm).
  - apply fresh_wf, HN.
  - apply Forall_take, Hcs.
  - exists rs, q'. split; [exact E|].
    destruct Hwf as (_ & _ & Hsz & _). cbn in Hm. rewrite Hm in Hsz. auto.
Qed.

Lemma size_within_capacity_witness :
  exists rs q',
    run_calls (take 4 [(Push (FQE 1 2) 1, rc_unlock_fails); (Pop 0, rc_busy);
                       (Pop 1, rc_ok); (Pop 1, rc_unlock_fails);
                       (Push (FQE 3 4) 0, rc_ok)])
              (fresh 2) = Some (rs, q') /\
    0 <= size q' <= 2 /\ max_elements q' = 2.
Proof.
  apply (size_within_capacity env_ok (fresh 0) 2 (fresh 2)).
  - unfold UINT_RANGE. lia.
  - reflexivity.
  - repeat constructor; cbn; discriminate.
Defined.

Lemma pushes_run tbs : forall q,
  fq_wf q -> size q + Z.of_nat (length tbs) <= max_elements q ->
  exists q',
    run_calls (pushes tbs) q
    = Some (map (fun _ => (PT_SUCCESS, None)) tbs, q') /\
    fq_wf q' /\
    max_elements q' = max_elements q /\
    contents q' = contents q ++ map (fun tb => Some (fst tb)) tbs /\
    size q' = size q + Z.of_nat (length tbs).
Proof.
  induction tbs as [|[t b] tbs IH]; intros q Hwf Hroom.
  - exists q. cbn. rewrite app_nil_r, Z.add_0_r. auto.
  - cbn [length] in Hroom.
    destruct (exec_push_ok q t b rc_ok Hwf rc_ok_locks_ok)
      as (q1 & tr & E & Hwf1 & Hm1 & Hc1 & Hs1 & _); [lia|].
    destruct (IH q1 Hwf1) as (q' & E' & Hwf' & Hm' & Hc' & Hs'); [lia|].
    exists q'.
    change (pushes ((t, b) :: tbs)) with ((Push t b, rc_ok) :: pushes tbs).
    cbn [run_calls]. rewrite E, E'.
    split; [reflexivity|]. split; [exact Hwf'|]. split; [congruence|].
    split.
    + rewrite Hc', Hc1, <- app_assoc. reflexivity.
    + cbn [length]. lia.
Qed.

Lemma pops_run ss : forall q bs rest,
  fq_wf q -> contents q = ss ++ rest -> length bs = length ss ->
  exists q',
    run_calls (pops bs) q = Some (map (fun s => (PT_SUCCESS, s)) ss, q') /\
    fq_wf q' /\
    max_elements q' = max_elements q /\
    contents q' = rest /\
    size q' = size q - Z.of_nat (length ss).
Proof.
  induction ss as [|s ss IH]; intros q bs rest Hwf Hc Hlen.
  - destruct bs; [|discriminate]. exists q. cbn. rewrite Z.sub_0_r. auto.
  - destruct bs as [|b bs]; [discriminate|]. injection Hlen as Hlen.
    assert (Hsome : 0 < size q).
    { pose proof (contents_length q Hwf) as L. rewrite Hc in L. cbn in L. lia. }
    destruct (exec_pop_ok q b rc_ok Hwf rc_ok_locks_ok Hsome)
      as (s1 & q1 & tr & E & Hwf1 & Hm1 & Hc1 & Hs1 & _).
    rewrite Hc in Hc1. cbn in Hc1. injection Hc1 as <- Hc1.
    destruct (IH q1 bs rest Hwf1 (eq_sym Hc1) Hlen)
      as (q' & E' & Hwf' & Hm' & Hc' & Hs').
    exists q'.
    change (pops (b :: bs)) with ((Pop b, rc_ok) :: pops bs).
    cbn [run_calls]. rewrite E, E'.
    split; [reflexivity|]. split; [exact Hwf'|]. split; [congruence|].
    split; [exact Hc'|]. cbn [length]. lia.
Qed.

Lemma contents_empty q : fq_wf q -> size q = 0 -> contents q = [].
Proof.
  intros Hwf Hs. apply length_zero_iff_nil.
  rewrite contents_length, Hs by assumption. reflexivity.
Qed.

(** C2.  On an empty well-formed queue of capacity [N], [k <= N] pushes
    followed by [k] pops, every lock call succeeding: every push and every
    pop returns [PT_SUCCESS], the pops hand out the pushed tasks in the
    order of the pushes, and the queue is empty again.  (The tasks need
    not be distinct for this.) *)
Theorem fifo_order q tbs bs :
  fq_wf q -> size q = 0 ->
  Z.of_nat (length tbs) <= max_elements q ->
  length bs = length tbs ->
  exists q',
    run_calls (pushes tbs ++ pops bs) q
    = Some (map (fun _ => (PT_SUCCESS, None)) tbs
            ++ map (fun tb => (PT_SUCCESS, Some (fst tb))) tbs, q') /\
    size q' = 0.
Proof.
  intros Hwf Hempty Hk Hlen.
  destruct (pushes_run tbs q Hwf) as (q1 & E1 & Hwf1 & Hm1 & Hc1 & Hs1); [lia|].
  rewrite (contents_empty q Hwf Hempty) in Hc1. cbn in Hc1.
  destruct (pops_run (map (fun tb => Some (fst tb)) tbs) q1 bs [] Hwf1)
    as (q' & E' & Hwf' & Hm' & Hc' & Hs').
  - rewrite app_nil_r. exact Hc1.
  - rewrite length_map. exact Hlen.
  - exists q'. rewrite run_calls_app, E1, E'. rewrite map_map.
    split; [reflexivity|]. rewrite length_map in Hs'. lia.
Qed.

Lemma fifo_order_witness :
  exists q',
    run_calls (pushes [(FQE 1 10, 1); (FQE 2 20, 0); (FQE 3 30, 1)]
               ++ pops [1; 1; 0]) (fresh 3)
    = Some ([(PT_SUCCESS, None); (PT_SUCCESS, None); (PT_SUCCESS, None);
             (PT_SUCCESS, Some (FQE 1 10)); (PT_SUCCESS, Some (FQE 2 20));
             (PT_SUCCESS, Some (FQE 3 30))], q') /\
    size q' = 0.
Proof.
  apply (fifo_order (fresh 3) [(FQE 1 10, 1); (FQE 2 20, 0); (FQE 3 30, 1)]
           [1; 1; 0]).
  - apply fresh_wf. unfold UINT_RANGE. lia.
  - reflexivity.
  - cbn. lia.
  - reflexivity.
Defined.

(** One push then one pop on an empty queue. *)
Lemma round_run q t b1 b2 :
  fq_wf q -> size q = 0 -> 1 <= max_elements q ->
  exists q',
    run_calls [(Push t b1, rc_ok); (Pop b2, rc_ok)] q
    = Some ([(PT_SUCCESS, None); (PT_SUCCESS, Some t)], q') /\
    fq_wf q' /\
    max_elements q' = max_elements q /\
    size q' = 0 /\
    front q' = (front q + 1) mod max_elements q /\
    back q' = front q'.
Proof.
  intros Hwf Hempty Hcap.
  destruct (exec_push_ok q t b1 rc_ok Hwf rc_ok_locks_ok)
    as (q1 & tr1 & E1 & Hwf1 & Hm1 & Hc1 & Hs1 & Hf1 & Hb1); [lia|].
  rewrite (contents_empty q Hwf Hempty) in Hc1. cbn in Hc1.
  destruct (exec_pop_ok q1 b2 rc_ok Hwf1 rc_ok_locks_ok)
    as (s & q2 & tr2 & E2 & Hwf2 & Hm2 & Hc2 & Hs2 & Hf2 & Hb2); [lia|].
  rewrite Hc1 in Hc2. injection Hc2 as <- _.
  exists q2. cbn [run_calls]. rewrite E1, E2.
  split; [reflexivity|]. split; [exact Hwf2|]. split; [congruence|].
  split; [lia|].
  rewrite Hf2, Hb2, Hb1, Hm1, Hf1. split; [reflexivity|].
  destruct Hwf as (_ & _ & _ & [(H0 & _)|(Hf & Hb)]); [lia|].
  rewrite Hb, Hempty, Z.add_0_r, mod_succ_l by lia. reflexivity.
Qed.

(** C7.  On an empty well-formed queue of capacity [N >= 1], any number of
    push/pop rounds (in particular [N] rounds, [2N] calls), every lock call
    succeeding: every push and every pop returns [PT_SUCCESS], each pop
    hands out the task of the push just before it, and afterwards [size]
    is 0 and [front] and [back] both stand [length tbs] cells further on,
    modulo [N]. *)
Theorem alternating_rounds tbs : forall q,
  fq_wf q -> size q = 0 -> 1 <= max_elements q ->
  exists q',
    run_calls (rounds tbs) q
    = Some (flat_map (fun x => [(PT_SUCCESS, None);
                                (PT_SUCCESS, Some (fst (fst x)))]) tbs, q') /\
    fq_wf q' /\
    max_elements q' = max_elements q /\
    size q' = 0 /\
    front q' = (front q + Z.of_nat (length tbs)) mod max_elements q /\
    back q' = front q'.
Proof.
  induction tbs as [|[[t b1] b2] tbs IH]; intros q Hwf Hempty Hcap.
  - exists q. cbn.
    split; [reflexivity|]. split; [exact Hwf|]. split; [reflexivity|].
    split; [exact Hempty|].
    destruct Hwf as (Hmax & Hl & Hsz & [(H0 & _)|(Hf & Hb)]); [lia|].
    rewrite Z.add_0_r, Z.mod_small by lia. split; [reflexivity|].
    rewrite Hb, Hempty, Z.add_0_r. apply Z.mod_small. lia.
  - destruct (round_run q t b1 b2 Hwf Hempty Hcap)
      as (q1 & E1 & Hwf1 & Hm1 & Hs1 & Hf1 & Hb1).
    destruct (IH q1 Hwf1 Hs1) as (q' & E' & Hwf' & Hm' & Hs' & Hf' & Hb'); [lia|].
    exists q'.
    change (rounds ((t, b1, b2) :: tbs))
      with ([(Push t b1, rc_ok); (Pop b2, rc_ok)] ++ rounds tbs).
    rewrite run_calls_app, E1, E'.
    split; [reflexivity|]. split; [exact Hwf'|]. split; [congruence|].
    split; [exact Hs'|]. split; [|exact Hb'].
    rewrite Hf', Hf1, Hm1, Zplus_mod_idemp_l. f_equal. cbn [length]. lia.
Qed.

Lemma alternating_rounds_witness :
  exists q',
    run_calls (rounds [(FQE 1 10, 1, 1); (FQE 2 20, 0, 1); (FQE 3 30, 1, 0);
                       (FQE 4 40, 1, 1)]) (fresh 2)
    = Some ([(PT_SUCCESS, None); (PT_SUCCESS, Some (FQE 1 10));
             (PT_SUCCESS, None); (PT_SUCCESS, Some (FQE 2 20));
             (PT_SUCCESS, None); (PT_SUCCESS, Some (FQE 3 30));
             (PT_SUCCESS, None); (PT_SUCCESS, Some (FQE 4 40))], q') /\
    fq_wf q' /\
    max_elements q' = 2 /\
    size q' = 0 /\
    front q' = 0 /\
    back q' = front q'.
Proof.
  apply (alternating_rounds [(FQE 1 10, 1, 1); (FQE 2 20, 0, 1);
                             (FQE 3 30, 1, 0); (FQE 4 40, 1, 1)] (fresh 2)).
  - apply fresh_wf. unfold UINT_RANGE. lia.
  - reflexivity.
  - cbn. lia.
Defined.

Lemma exec_peek_ok q block rc :
  fq_wf q -> locks_ok rc -> 0 < size q ->
  exists l s tr,
    elements q = Some l /\
    l !! Z.to_nat ((front q + 1) mod max_elements q) = Some s /\
    run (fq_peek None block) rc q = Some ((PT_SUCCESS, s), q, tr) /\
    contents q = s :: tl (contents q).
Proof.
  intros Hwf Hrc Hsome.
  destruct (pop_step q None block rc Hwf (Hrc 0%nat) Hsome)
    as (l & s & _ & El & Hs & _).
  pose proof (popped_contents q l s Hwf El Hsome Hs) as Hc.
  destruct Hwf as (Hmax & _ & Hsz & [(H0 & _)|(Hf & Hb)]); [lia|].
  exists l, s. eexists. split; [exact El|]. split; [exact Hs|].
  rewrite fq_peek_run, (Hrc 1%nat), (Hrc 3%nat), El. cbn -[Z.to_nat].
  rewrite next_index_mod, Hs by lia.
  destruct (Z.eqb_spec (size q) 0) as [E|_]; [lia|].
  split; [reflexivity|]. rewrite Hc. reflexivity.
Qed.

Lemma peeks_run q s bs :
  fq_wf q -> 0 < size q -> hd_error (contents q) = Some s ->
  run_calls (peeks bs) q = Some (map (fun _ => (PT_SUCCESS, s)) bs, q).
Proof.
  intros Hwf Hsome Hhd. induction bs as [|b bs IH]; [reflexivity|].
  change (peeks (b :: bs)) with ((Peek b, rc_ok) :: peeks bs).
  cbn [run_calls exec].
  destruct (exec_peek_ok q b rc_ok Hwf rc_ok_locks_ok Hsome)
    as (l & s' & tr & _ & _ & E & Hc).
  rewrite Hc in Hhd. injection Hhd as ->.
  rewrite E, IH. reflexivity.
Qed.

(** C6.  On a well-formed non-empty queue, every lock call succeeding,
    [fq_peek] returns [PT_SUCCESS] with the cell at
    [(front + 1) mod max_elements] and leaves the queue (front, back, size
    and buffer) as it was; a pop at that point hands out the same cell;
    and after any number of peeks, each of which returns that same cell,
    the pop returns what it returns without them and leaves the same
    queue. *)
Theorem peek_is_next_pop q block bs b :
  fq_wf q -> 0 < size q ->
  exists l s tr q',
    elements q = Some l /\
    l !! Z.to_nat ((front q + 1) mod max_elements q) = Some s /\
    run (fq_peek None block) rc_ok q = Some ((PT_SUCCESS, s), q, tr) /\
    run_calls (pops [b]) q = Some ([(PT_SUCCESS, s)], q') /\
    run_calls (peeks bs ++ pops [b]) q
    = Some (map (fun _ => (PT_SUCCESS, s)) bs ++ [(PT_SUCCESS, s)], q').
Proof.
  intros Hwf Hsome.
  destruct (exec_peek_ok q block rc_ok Hwf rc_ok_locks_ok Hsome)
    as (l & s & tr & El & Hs & E & Hc).
  destruct (pops_run [s] q [b] (tl (contents q)) Hwf Hc eq_refl)
    as (q' & E' & _).
  exists l, s, tr, q'.
  split; [exact El|]. split; [exact Hs|]. split; [exact E|].
  split; [exact E'|].
  rewrite run_calls_app, (peeks_run q s bs Hwf Hsome), E'; [reflexivity|].
  rewrite Hc. reflexivity.
Qed.

Lemma peek_is_next_pop_witness :
  exists l s tr q',
    elements (FQ (Some [Some (FQE 2 20); None; Some (FQE 1 10)]) 1 0 2 3)
    = Some l /\
    l !! Z.to_nat ((1 + 1) mod 3) = Some s /\
    run (fq_peek None 1) rc_ok
        (FQ (Some [Some (FQE 2 20); None; Some (FQE 1 10)]) 1 0 2 3)
    = Some ((PT_SUCCESS, s),
            FQ (Some [Some (FQE 2 20); None; Some (FQE 1 10)]) 1 0 2 3, tr) /\
    run_calls (pops [0])
              (FQ (Some [Some (FQE 2 20); None; Some (FQE 1 10)]) 1 0 2 3)
    = Some ([(PT_SUCCESS, s)], q') /\
    run_calls (peeks [1; 0; 1] ++ pops [0])
              (FQ (Some [Some (FQE 2 20); None; Some (FQE 1 10)]) 1 0 2 3)
    = Some (map (fun _ => (PT_SUCCESS, s)) [1; 0; 1] ++ [(PT_SUCCESS, s)], q').
Proof.
  apply (peek_is_next_pop
           (FQ (Some [Some (FQE 2 20); None; Some (FQE 1 10)]) 1 0 2 3)
           1 [1; 0; 1] 0).
  - unfold fq_wf, UINT_RANGE. cbn.
    split; [lia|]. split; [eauto|]. split; [lia|]. right.
    split; [lia|reflexivity].
  - cbn. lia.
Defined.

(** C8 as stated fails at capacity 1: the first push on the freshly
    constructed queue succeeds with [back] wrapped to 0, not advanced to
    1, and the task in cell 0. *)
Lemma first_push_wraps_at_capacity_one :
  fq_init env_ok (fresh 0) 1 = (PT_SUCCESS, fresh 1) /\
  run (fq_push (FQE 1 10) 1) rc_ok (fresh 1)
  = Some (PT_SUCCESS, FQ (Some [Some (FQE 1 10)]) 0 0 1 1,
          [Ev Mutex_lock 0; Ev Mutex_lock 0; Ev Mutex_unlock 0;
           Ev Mutex_unlock 0]) /\
  back (FQ (Some [Some (FQE 1 10)]) 0 0 1 1) <> 1.
Proof. repeat split. discriminate. Qed.

(** C8, amended.  A queue that [fq_init] constructed has
    [front = back = 0], [size = 0] and a buffer of [N] cells none of which
    holds valid data.  With the lock calls succeeding, the first push on
    it succeeds and, when [N >= 2], advances [back] to 1 and writes the
    task into cell 1 (cell 0 still holds none); when [N = 1], [back] wraps
    to 0 and the task is written into cell 0. *)
Theorem first_push_on_fresh env q0 N q e block rc :
  0 <= N < UINT_RANGE ->
  fq_init env q0 N = (PT_SUCCESS, q) ->
  locks_ok rc ->
  front q = 0 /\ back q = 0 /\ size q = 0 /\
  elements q = Some (replicate (Z.to_nat N) None) /\
  (2 <= N ->
   exists l tr,
     run (fq_push e block) rc q = Some (PT_SUCCESS, FQ (Some l) 0 1 1 N, tr) /\
     l !! 1%nat = Some (Some e) /\ l !! 0%nat = Some None) /\
  (N = 1 ->
   exists tr,
     run (fq_push e block) rc q
     = Some (PT_SUCCESS, FQ (Some [Some e]) 0 0 1 1, tr)).
Proof.
  intros HN Hinit Hrc. apply fq_init_success in Hinit. subst q.
  repeat (split; [reflexivity|]).
  split.
  - intros H2.
    destruct (push_step (fresh N) e block rc (fresh_wf N HN) (Hrc 0%nat))
      as (l & tr & El & Hrun); [cbn; lia|].
    rewrite (Hrc 3%nat) in Hrun. cbn in Hrun, El. injection El as <-.
    rewrite Z.mod_small in Hrun by lia.
    eexists. exists tr. split; [exact Hrun|].
    split.
    + apply list_lookup_insert_eq. rewrite length_replicate. lia.
    + rewrite list_lookup_insert_ne by discriminate.
      apply lookup_replicate_2. lia.
  - intros ->.
    rewrite fq_push_run, (Hrc 0%nat), (Hrc 3%nat). cbn. eauto.
Qed.

Lemma first_push_on_fresh_witness :
  front (fresh 3) = 0 /\ back (fresh 3) = 0 /\ size (fresh 3) = 0 /\
  elements (fresh 3) = Some (replicate (Z.to_nat 3) None) /\
  (exists l tr,
     run (fq_push (FQE 1 10) 0) rc_ok (fresh 3)
     = Some (PT_SUCCESS, FQ (Some l) 0 1 1 3, tr) /\
     l !! 1%nat = Some (Some (FQE 1 10)) /\ l !! 0%nat = Some None).
Proof.
  destruct (first_push_on_fresh env_ok (fresh 0) 3 (fresh 3) (FQE 1 10) 0 rc_ok)
    as (Hf & Hb & Hs & He & H2 & _).
  - unfold UINT_RANGE. lia.
  - reflexivity.
  - intros i. reflexivity.
  - repeat (split; [assumption|]). apply H2. lia.
Defined.

(** C9.  Construction with capacity 0 either returns an error code or
    yields a queue on which, with the lock calls succeeding, every push of a
    sequence of pushes and pops returns [PT_EFQFULL] and every pop returns
    [PT_EFQEMPTY] without filling the caller's element, and the queue stays
    as constructed. *)
Theorem capacity_zero env q0 r q :
  fq_init env q0 0 = (r, q) ->
  r <> PT_SUCCESS \/
  (forall cs,
     Forall (fun c => push_or_pop (fst c) /\ locks_ok (snd c)) cs ->
     run_calls cs q
     = Some (map (fun c => match fst c with
                           | Push _ _ => (PT_EFQFULL, None)
                           | _ => (PT_EFQEMPTY, None)
                           end) cs, q)).
Proof.
  intros Hinit.
  destruct r; try (left; discriminate).
  right. apply fq_init_success in Hinit. subst q.
  intros cs Hcs. induction Hcs as [|[c rc] cs [Hc Hrc] _ IH]; [reflexivity|].
  cbn in Hc, Hrc. cbn [run_calls map fst].
  destruct c as [e b|b|b]; [| |destruct Hc]; unfold exec.
  - rewrite fq_push_run, (Hrc 0%nat), (Hrc 3%nat). cbn -[run_calls].
    rewrite IH. reflexivity.
  - rewrite fq_pop_run, (Hrc 0%nat), (Hrc 1%nat), (Hrc 3%nat). cbn -[run_calls].
    rewrite IH. reflexivity.
Qed.

Lemma capacity_zero_witness :
  run_calls [(Push (FQE 1 10) 1, rc_ok); (Pop 0, rc_ok); (Push (FQE 2 20) 0, rc_ok)]
            (fresh 0)
  = Some ([(PT_EFQFULL, None); (PT_EFQEMPTY, None); (PT_EFQFULL, None)], fresh 0).
Proof.
  destruct (capacity_zero env_ok (fresh 7) PT_SUCCESS (fresh 0) eq_refl) as [H|H].
  - contradiction H. reflexivity.
  - apply (H [(Push (FQE 1 10) 1, rc_ok); (Pop 0, rc_ok);
              (Push (FQE 2 20) 0, rc_ok)]).
    repeat constructor; intros i; reflexivity.
Defined.

(** On a well-formed queue the cell a push writes and the cell a pop or a
    peek reads are inside the buffer. *)
Lemma wf_store_in_range q :
  fq_wf q -> size q <> max_elements q ->
  exists l,
    elements q = Some l /\
    (Z.to_nat (next_index (back q) (max_elements q)) <? length l)%nat = true.
Proof.
  intros (Hmax & (l & El & Hlen) & Hsz & Hidx) Hne.
  destruct Hidx as [(H0 & _)|(Hf & Hb)]; [lia|].
  exists l. split; [exact El|]. apply Nat.ltb_lt.
  assert (Hbr : 0 <= back q < max_elements q)
    by (rewrite Hb; apply Z.mod_pos_bound; lia).
  pose proof (next_index_range (back q) (max_elements q) Hbr (proj2 Hmax)).
  lia.
Qed.

Lemma wf_load_in_range q :
  fq_wf q -> 0 < max_elements q ->
  exists l s,
    elements q = Some l /\
    l !! Z.to_nat (next_index (front q) (max_elements q)) = Some s.
Proof.
  intros (Hmax & (l & El & Hlen) & Hsz & Hidx) Hcap.
  destruct Hidx as [(H0 & _)|(Hf & Hb)]; [lia|].
  pose proof (next_index_range (front q) (max_elements q) Hf (proj2 Hmax)).
  destruct (lookup_lt_is_Some_2 l
              (Z.to_nat (next_index (front q) (max_elements q)))) as [s Hs];
    [lia|].
  exists l, s. auto.
Qed.

(** C10.  In a push, a pop or a peek that reaches its critical section
    (the acquisition succeeded; [fq_peek] reaches it in any case) and whose
    closing unlock fails, everything is as in the run where that unlock
    succeeds (the same queue afterwards, the same element handed out, an
    undefined access if there is one) but for the returned code, which is
    [PT_EPMU] in place of the [PT_SUCCESS], [PT_EFQFULL] or [PT_EFQEMPTY]
    of that run; and on a well-formed queue the call does return
    [PT_EPMU], its last pthread call being the failed unlock. *)
Theorem unlock_failure_masks c rc q :
  match c with Peek _ => True | _ => rc 0%nat = 0 end ->
  rc (final_unlock c rc) <> 0 ->
  exec c rc q
  = match exec c (patch rc (final_unlock c rc)) q with
    | Some ((r0, s), q', tr0) =>
        Some ((PT_EPMU, s), q',
              removelast tr0 ++ [Ev Mutex_unlock (rc (final_unlock c rc))])
    | None => None
    end /\
  (forall r0 s q' tr0,
     exec c (patch rc (final_unlock c rc)) q = Some ((r0, s), q', tr0) ->
     r0 = PT_SUCCESS \/ r0 = PT_EFQFULL \/ r0 = PT_EFQEMPTY) /\
  (fq_wf q ->
   match c with
   | Push _ _ => True
   | _ => 0 < max_elements q \/ rc 1%nat = 0
   end ->
   exists s q' tr,
     exec c rc q = Some ((PT_EPMU, s), q', tr) /\
     last tr = Some (Ev Mutex_unlock (rc (final_unlock c rc)))).
Proof.
  intros Hacq Hu. apply Z.eqb_neq in Hu.
  destruct c as [e block|block|block]; unfold exec, final_unlock in *.
  - rewrite !fq_push_run. unfold patch. run_simpl. rewrite Hacq in *.
    run_simpl. rewrite Hu.
    split; [|split].
    + run_cases.
    + intros r0 s q' tr0 H. split_run H; try discriminate;
        injection H as <- <- <- <-; auto.
    + intros Hwf _. destruct (Z.eqb_spec (size q) (max_elements q)) as [E|N].
      * do 3 eexists. split; reflexivity.
      * destruct (wf_store_in_range q Hwf N) as (l & El & Hi).
        rewrite El, Hi. do 3 eexists. split; reflexivity.
  - rewrite !fq_pop_run. unfold patch.
    destruct (rc 1%nat =? 0) eqn:E1; run_simpl; rewrite Hacq in *;
      run_simpl; rewrite ?E1, Hu; run_simpl.
    + split; [|split].
      * run_cases.
      * intros r0 s q' tr0 H. split_run H; try discriminate;
          injection H as <- <- <- <-; auto.
      * intros Hwf _. destruct (Z.eqb_spec (size q) 0) as [E|N].
        -- do 3 eexists. split; reflexivity.
        -- destruct (wf_load_in_range q Hwf) as (l & s & El & Hs).
           { destruct Hwf as (_ & _ & ? & _). lia. }
           rewrite El, Hs. do 3 eexists. split; reflexivity.
    + split; [|split].
      * run_cases.
      * intros r0 s q' tr0 H. split_run H; try discriminate;
          injection H as <- <- <- <-; auto.
      * intros Hwf [Hcap|H1]; [|rewrite H1 in E1; discriminate].
        destruct (wf_load_in_range q Hwf Hcap) as (l & s & El & Hs).
        rewrite El, Hs. do 3 eexists. split; reflexivity.
  - rewrite !fq_peek_run. unfold patch.
    destruct (rc 1%nat =? 0) eqn:E1; run_simpl; rewrite ?E1, Hu; run_simpl.
    + split; [|split].
      * run_cases.
      * intros r0 s q' tr0 H. split_run H; try discriminate;
          injection H as <- <- <- <-; auto.
      * intros Hwf _. destruct (Z.eqb_spec (size q) 0) as [E|N].
        -- do 3 eexists. split; reflexivity.
        -- destruct (wf_load_in_range q Hwf) as (l & s & El & Hs).
           { destruct Hwf as (_ & _ & ? & _). lia. }
           rewrite El, Hs. do 3 eexists. split; reflexivity.
    + split; [|split].
      * run_cases.
      * intros r0 s q' tr0 H. split_run H; try discriminate;
          injection H as <- <- <- <-; auto.
      * intros Hwf [Hcap|H1]; [|rewrite H1 in E1; discriminate].
        destruct (wf_load_in_range q Hwf Hcap) as (l & s & El & Hs).
        rewrite El, Hs. do 3 eexists. split; reflexivity.
Qed.

Lemma unlock_failure_masks_witness :
  (exec (Push (FQE 7 8) 1) (patch rc_unlock_fails 3)
        (FQ (Some [Some (FQE 1 2)]) 0 0 1 1)
   = Some ((PT_EFQFULL, None), FQ (Some [Some (FQE 1 2)]) 0 0 1 1,
           [Ev Mutex_lock 0; Ev Mutex_lock 0; Ev Mutex_unlock 0;
            Ev Mutex_unlock 0]) /\
   exec (Push (FQE 7 8) 1) rc_unlock_fails (FQ (Some [Some (FQE 1 2)]) 0 0 1 1)
   = Some ((PT_EPMU, None), FQ (Some [Some (FQE 1 2)]) 0 0 1 1,
           [Ev Mutex_lock 0; Ev Mutex_lock 0; Ev Mutex_unlock 0;
            Ev Mutex_unlock 1])) /\
  (exec (Pop 0) (patch rc_unlock_fails 3) (FQ (Some [Some (FQE 1 2)]) 0 0 1 1)
   = Some ((PT_SUCCESS, Some (FQE 1 2)), FQ (Some [Some (FQE 1 2)]) 0 0 0 1,
           [Ev Mutex_trylock 0; Ev Mutex_trylock 0; Ev Mutex_unlock 0;
            Ev Mutex_unlock 0]) /\
   exec (Pop 0) rc_unlock_fails (FQ (Some [Some (FQE 1 2)]) 0 0 1 1)
   = Some ((PT_EPMU, Some (FQE 1 2)), FQ (Some [Some (FQE 1 2)]) 0 0 0 1,
           [Ev Mutex_trylock 0; Ev Mutex_trylock 0; Ev Mutex_unlock 0;
            Ev Mutex_unlock 1])) /\
  (exec (Peek 1) (patch rc_unlock_fails 3) (fresh 2)
   = Some ((PT_EFQEMPTY, None), fresh 2,
           [Ev Mutex_lock 0; Ev Mutex_lock 0; Ev Mutex_unlock 0;
            Ev Mutex_unlock 0]) /\
   exec (Peek 1) rc_unlock_fails (fresh 2)
   = Some ((PT_EPMU, None), fresh 2,
           [Ev Mutex_lock 0; Ev Mutex_lock 0; Ev Mutex_unlock 0;
            Ev Mutex_unlock 1])) /\
  (exists s q' tr,
     exec (Peek 0) (fun i => match i with 2%nat => 1 | _ => 16 end)
          (FQ (Some [None; Some (FQE 1 2)]) 0 1 1 2)
     = Some ((PT_EPMU, s), q', tr) /\
     last tr = Some (Ev Mutex_unlock 1)).
Proof.
  destruct (unlock_failure_masks (Push (FQE 7 8) 1) rc_unlock_fails
              (FQ (Some [Some (FQE 1 2)]) 0 0 1 1)) as (Hpush & _ & _);
    [reflexivity|discriminate|].
  destruct (unlock_failure_masks (Pop 0) rc_unlock_fails
              (FQ (Some [Some (FQE 1 2)]) 0 0 1 1)) as (Hpop & _ & _);
    [reflexivity|discriminate|].
  destruct (unlock_failure_masks (Peek 1) rc_unlock_fails (fresh 2))
    as (Hpeek & _ & _); [exact I|discriminate|].
  destruct (unlock_failure_masks (Peek 0)
              (fun i => match i with 2%nat => 1 | _ => 16 end)
              (FQ (Some [None; Some (FQE 1 2)]) 0 1 1 2)) as (_ & _ & Hret);
    [exact I|discriminate|].
  split; [split; [reflexivity|rewrite Hpush; reflexivity]|].
  split; [split; [reflexivity|rewrite Hpop; reflexivity]|].
  split; [split; [reflexivity|rewrite Hpeek; reflexivity]|].
  apply Hret.
  - unfold fq_wf, UINT_RANGE. cbn.
    split; [lia|]. split; [eauto|]. split; [lia|]. right.
    split; [lia|reflexivity].
  - left. cbn. lia.
Defined.

(** [fq_peek] and [fq_is_full] never report a failed acquisition: the
    branch that would do so is dead. *)
Lemma fq_peek_never_lock_failed e0 block rc q r q' tr :
  run (fq_peek e0 block) rc q = Some (r, q', tr) ->
  fst r <> PT_EPMTL /\ fst r <> PT_EPML.
Proof.
  rewrite fq_peek_run. cbv zeta. intros Hrun.
  split_run Hrun; try discriminate; injection Hrun as <- <- <-;
    split; discriminate.
Qed.

Lemma fq_is_full_never_lock_failed v block rc q r q' tr :
  run (fq_is_full v block) rc q = Some (r, q', tr) ->
  fst r <> PT_EPMTL /\ fst r <> PT_EPML.
Proof.
  rewrite fq_is_full_run. intros Hrun.
  split_run Hrun; injection Hrun as <- <- <-; split; discriminate.
Qed.

(** C1 (what the code does instead).  With the acquisition failing
    ([EBUSY] from the try, or an error from the blocking wait), [fq_peek]
    and [fq_is_full] go on to read the queue: on an empty queue [fq_peek]
    returns [PT_EFQEMPTY], on a queue holding a task it returns
    [PT_SUCCESS] with that task, and [fq_is_full] returns [PT_SUCCESS] with
    the fullness flag written; [fq_pop] and [fq_is_empty] at the same
    inputs return [PT_EPMTL] and [PT_EPML]. *)
Theorem peek_is_full_ignore_failed_lock :
  run (fq_peek None 0) rc_busy (fresh 2)
  = Some ((PT_EFQEMPTY, None), fresh 2,
          [Ev Mutex_trylock 16; Ev Mutex_trylock 0; Ev Mutex_unlock 0;
           Ev Mutex_unlock 0]) /\
  run (fq_peek None 1) rc_busy (FQ (Some [None; Some (FQE 1 10)]) 0 1 1 2)
  = Some ((PT_SUCCESS, Some (FQE 1 10)),
          FQ (Some [None; Some (FQE 1 10)]) 0 1 1 2,
          [Ev Mutex_lock 16; Ev Mutex_lock 0; Ev Mutex_unlock 0;
           Ev Mutex_unlock 0]) /\
  run (fq_is_full 0 0) rc_busy (FQ (Some [Some (FQE 1 10)]) 0 0 1 1)
  = Some ((PT_SUCCESS, 1), FQ (Some [Some (FQE 1 10)]) 0 0 1 1,
          [Ev Mutex_trylock 16; Ev Mutex_unlock 0]) /\
  run (fq_is_full 0 1) rc_busy (fresh 2)
  = Some ((PT_SUCCESS, 0), fresh 2, [Ev Mutex_lock 16; Ev Mutex_unlock 0]) /\
  run (fq_pop None 0) rc_busy (fresh 2)
  = Some ((PT_EPMTL, None), fresh 2, [Ev Mutex_trylock 16]) /\
  run (fq_is_empty 0 1) rc_busy (fresh 2)
  = Some ((PT_EPML, 0), fresh 2, [Ev Mutex_lock 16]).
Proof. repeat split. Qed.

(** The scenario of the specification: capacity 3; push A, B, C; push D is
    refused; pop gives A; push D; three pops give B, C, D; the next pop
    finds the queue empty. *)
Example scenario_capacity_three :
  run_calls (pushes [(FQE 1 0, 1); (FQE 2 0, 1); (FQE 3 0, 1); (FQE 4 0, 1)]
             ++ pops [1] ++ pushes [(FQE 4 0, 1)] ++ pops [1; 1; 1; 1])
            (fresh 3)
  = Some ([(PT_SUCCESS, None); (PT_SUCCESS, None); (PT_SUCCESS, None);
           (PT_EFQFULL, None); (PT_SUCCESS, Some (FQE 1 0));
           (PT_SUCCESS, None); (PT_SUCCESS, Some (FQE 2 0));
           (PT_SUCCESS, Some (FQE 3 0)); (PT_SUCCESS, Some (FQE 4 0));
           (PT_EFQEMPTY, None)],
          FQ (Some [Some (FQE 3 0); Some (FQE 4 0); Some (FQE 2 0)]) 1 1 0 3).
Proof. reflexivity. Qed.

(** Why the bound on [size] is stated for a re-entrant lock: [fq_pop] does
    not look at what [fq_is_empty] returns, so a nested acquisition that
    fails leaves [is_empty] at 0 and the pop goes on, on an empty queue. *)
Example pop_when_nested_lock_fails :
  run (fq_pop None 1) (fun i => match i with 1%nat => 11 | _ => 0 end) (fresh 2)
  = Some ((PT_SUCCESS, None), FQ (Some [None; None]) 1 0 4294967295 2,
          [Ev Mutex_lock 0; Ev Mutex_lock 11; Ev Mutex_unlock 0]).
Proof. reflexivity. Qed.

(** ** Further properties of [function_queue.c] *)

(** X1.  For a capacity in the range of [unsigned], [fq_init] returns
    [PT_SUCCESS] exactly when [pthread_once], both attribute calls,
    [pthread_mutex_init] and [malloc] all succeeded, and the queue it then
    leaves is the empty one of that capacity, which satisfies the
    representation invariant. *)
Theorem fq_init_success_iff env q0 N :
  0 <= N < UINT_RANGE ->
  (fst (fq_init env q0 N) = PT_SUCCESS <->
   once_rc env = 0 /\ init (init_attr_ret env) = 0 /\
   settype (init_attr_ret env) = 0 /\ mutex_init_rc env = 0 /\
   malloc_ok env = true) /\
  (fst (fq_init env q0 N) = PT_SUCCESS ->
   snd (fq_init env q0 N) = fresh N /\ fq_wf (snd (fq_init env q0 N))).
Proof.
  intros HN. split.
  - unfold fq_init, malloc.
    destruct (Z.eqb_spec (once_rc env) 0) as [E1|E1];
      [|split; [discriminate|intros (? & _); contradiction]].
    destruct (Z.eqb_spec (init (init_attr_ret env)) 0) as [E2|E2]; cbn;
      [|split; [discriminate|intros (_ & ? & _); contradiction]].
    destruct (Z.eqb_spec (settype (init_attr_ret env)) 0) as [E3|E3]; cbn;
      [|split; [discriminate|intros (_ & _ & ? & _); contradiction]].
    destruct (Z.eqb_spec (mutex_init_rc env) 0) as [E4|E4]; cbn;
      [|split; [discriminate|intros (_ & _ & _ & ? & _); contradiction]].
    destruct (malloc_ok env); cbn.
    + split; auto.
    + split; [|intros (_ & _ & _ & _ & ?); discriminate].
      destruct (mutex_destroy_rc env =? 0); discriminate.
  - intros Hs.
    destruct (fq_init env q0 N) as [r q] eqn:E. cbn in Hs. subst r.
    apply fq_init_success in E. subst q. cbn.
    split; [reflexivity|apply fresh_wf, HN].
Qed.

Lemma fq_init_success_iff_witness :
  (fst (fq_init env_ok (fresh 0) 5) = PT_SUCCESS <->
   once_rc env_ok = 0 /\ init (init_attr_ret env_ok) = 0 /\
   settype (init_attr_ret env_ok) = 0 /\ mutex_init_rc env_ok = 0 /\
   malloc_ok env_ok = true) /\
  (fst (fq_init env_ok (fresh 0) 5) = PT_SUCCESS ->
   snd (fq_init env_ok (fresh 0) 5) = fresh 5 /\
   fq_wf (snd (fq_init env_ok (fresh 0) 5))).
Proof.
  apply (fq_init_success_iff env_ok (fresh 0) 5). unfold UINT_RANGE. lia.
Defined.

(** X2.  A failing [fq_init] leaves no buffer behind: either [*q] is as it
    was before the call (a step before the allocation failed) or the
    counters are reset and [elements] is the null pointer ([malloc]
    failed).  In the latter case the code is [PT_EMALLOC] when the mutex
    could be destroyed again and [PT_EPMU] when it could not; [PT_EPO] is
    returned exactly when [pthread_once] failed. *)
Theorem fq_init_failure env q0 N :
  fst (fq_init env q0 N) <> PT_SUCCESS ->
  (snd (fq_init env q0 N) = q0 \/
   (snd (fq_init env q0 N) = FQ None 0 0 0 N /\
    fst (fq_init env q0 N)
    = if mutex_destroy_rc env =? 0 then PT_EMALLOC else PT_EPMU)) /\
  (fst (fq_init env q0 N) = PT_EPO <-> once_rc env <> 0).
Proof.
  unfold fq_init, malloc.
  destruct (Z.eqb_spec (once_rc env) 0) as [E1|E1]; cbn;
    [|intros _; split; [left; reflexivity|split; auto]].
  destruct (init (init_attr_ret env) =? 0); cbn;
    [|intros _; split; [left; reflexivity|split; [discriminate|contradiction]]].
  destruct (settype (init_attr_ret env) =? 0); cbn;
    [|intros _; split; [left; reflexivity|split; [discriminate|contradiction]]].
  destruct (mutex_init_rc env =? 0); cbn;
    [|intros _; split; [left; reflexivity|split; [discriminate|contradiction]]].
  destruct (malloc_ok env); cbn.
  - intros H. contradiction H. reflexivity.
  - intros _. split.
    + right. split; [reflexivity|].
      destruct (mutex_destroy_rc env =? 0); reflexivity.
    + split; [|contradiction].
      destruct (mutex_destroy_rc env =? 0); discriminate.
Qed.

Lemma fq_init_failure_witness :
  (snd (fq_init (InitEnv 0 (init_attr 0 0) 0 false 22) (fresh 1) 4) = fresh 1 \/
   (snd (fq_init (InitEnv 0 (init_attr 0 0) 0 false 22) (fresh 1) 4)
    = FQ None 0 0 0 4 /\
    fst (fq_init (InitEnv 0 (init_attr 0 0) 0 false 22) (fresh 1) 4)
    = if 22 =? 0 then PT_EMALLOC else PT_EPMU)) /\
  (fst (fq_init (InitEnv 0 (init_attr 0 0) 0 false 22) (fresh 1) 4) = PT_EPO
   <-> 0 <> 0).
Proof.
  apply (fq_init_failure (InitEnv 0 (init_attr 0 0) 0 false 22) (fresh 1) 4).
  discriminate.
Defined.

Lemma push_when_full q e block rc :
  locks_ok rc -> size q = max_elements q ->
  run (fq_push e block) rc q
  = Some (PT_EFQFULL, q,
          [Ev (acq block) 0; Ev (acq block) 0; Ev Mutex_unlock 0;
           Ev Mutex_unlock 0]).
Proof.
  intros Hrc Hfull.
  rewrite fq_push_run, (Hrc 0%nat), (Hrc 1%nat), (Hrc 2%nat), (Hrc 3%nat), Hfull.
  cbn. rewrite Z.eqb_refl. reflexivity.
Qed.

Lemma pop_when_empty q e0 block rc :
  locks_ok rc -> size q = 0 ->
  run (fq_pop e0 block) rc q
  = Some ((PT_EFQEMPTY, e0), q,
          [Ev (acq block) 0; Ev (acq block) 0; Ev Mutex_unlock 0;
           Ev Mutex_unlock 0]).
Proof.
  intros Hrc Hempty.
  rewrite fq_pop_run, (Hrc 0%nat), (Hrc 1%nat), (Hrc 2%nat), (Hrc 3%nat), Hempty.
  reflexivity.
Qed.

(** X3.  [fq_destroy] keeps the queue as it is when the mutex cannot be
    destroyed ([PT_EPMD]); when it can, the buffer is gone, and whatever
    the lock calls on the destroyed mutex return afterwards, no call
    succeeds: a push, a pop or a peek that returns at all returns a code
    other than [PT_SUCCESS] and leaves the struct and the caller's element
    as they were.  When the acquisition fails, as it does on a destroyed
    mutex, a push and a pop return [PT_EPMTL] or [PT_EPML]; a peek, which
    goes on regardless, dereferences the null pointer as soon as the
    nested acquisition fails too. *)
Theorem use_after_destroy q pmd e e0 block rc :
  (pmd <> 0 -> fq_destroy pmd q = (PT_EPMD, q)) /\
  fq_destroy 0 q
  = (PT_SUCCESS, FQ None (front q) (back q) (size q) (max_elements q)) /\
  (forall r q' tr,
     run (fq_push e block) rc (snd (fq_destroy 0 q)) = Some (r, q', tr) ->
     r <> PT_SUCCESS /\ q' = snd (fq_destroy 0 q)) /\
  (forall r s q' tr,
     run (fq_pop e0 block) rc (snd (fq_destroy 0 q)) = Some ((r, s), q', tr) ->
     r <> PT_SUCCESS /\ s = e0 /\ q' = snd (fq_destroy 0 q)) /\
  (forall r s q' tr,
     run (fq_peek e0 block) rc (snd (fq_destroy 0 q)) = Some ((r, s), q', tr) ->
     r <> PT_SUCCESS /\ s = e0 /\ q' = snd (fq_destroy 0 q)) /\
  (rc 0%nat <> 0 ->
   run (fq_push e block) rc (snd (fq_destroy 0 q))
   = Some (if block =? 0 then PT_EPMTL else PT_EPML, snd (fq_destroy 0 q),
           [Ev (acq block) (rc 0%nat)]) /\
   run (fq_pop e0 block) rc (snd (fq_destroy 0 q))
   = Some ((if block =? 0 then PT_EPMTL else PT_EPML, e0),
           snd (fq_destroy 0 q), [Ev (acq block) (rc 0%nat)])) /\
  (rc 1%nat <> 0 ->
   run (fq_peek e0 block) rc (snd (fq_destroy 0 q)) = None).
Proof.
  split.
  { intros H. unfold fq_destroy.
    destruct (Z.eqb_spec pmd 0); [contradiction|reflexivity]. }
  split; [reflexivity|].
  cbn [fq_destroy Z.eqb snd].
  rewrite fq_push_run, fq_pop_run, fq_peek_run. cbv zeta. cbn [elements size max_elements].
  split.
  { intros r q' tr H. split_run H; try discriminate; injection H as <- <- _;
      (split; [|reflexivity]); unfold lock_failed;
      try destruct (block =? 0); discriminate. }
  split.
  { intros r s q' tr H. split_run H; try discriminate; injection H as <- <- <- _;
      (split; [|split; reflexivity]); unfold lock_failed;
      try destruct (block =? 0); discriminate. }
  split.
  { intros r s q' tr H. split_run H; try discriminate; injection H as <- <- <- _;
      (split; [|split; reflexivity]); discriminate. }
  split.
  { intros H0. apply Z.eqb_neq in H0. rewrite H0. split; reflexivity. }
  { intros H1. apply Z.eqb_neq in H1. rewrite H1. reflexivity. }
Qed.

Lemma use_after_destroy_witness :
  fq_destroy 16 (FQ (Some [None; Some (FQE 1 10)]) 0 1 1 2)
  = (PT_EPMD, FQ (Some [None; Some (FQE 1 10)]) 0 1 1 2) /\
  (PT_EPMU <> PT_SUCCESS /\
   snd (fq_destroy 0 (FQ (Some [Some (FQE 1 10)]) 0 0 1 1))
   = snd (fq_destroy 0 (FQ (Some [Some (FQE 1 10)]) 0 0 1 1))) /\
  (run (fq_push (FQE 2 20) 1) (fun _ => 22) (snd (fq_destroy 0 (fresh 2)))
   = Some (PT_EPML, snd (fq_destroy 0 (fresh 2)), [Ev Mutex_lock 22]) /\
   run (fq_pop None 1) (fun _ => 22) (snd (fq_destroy 0 (fresh 2)))
   = Some ((PT_EPML, None), snd (fq_destroy 0 (fresh 2)), [Ev Mutex_lock 22])) /\
  run (fq_peek None 1) (fun _ => 22) (snd (fq_destroy 0 (fresh 2))) = None.
Proof.
  destruct (use_after_destroy (FQ (Some [None; Some (FQE 1 10)]) 0 1 1 2) 16
              (FQE 2 20) None 1 rc_ok) as (H1 & _).
  destruct (use_after_destroy (FQ (Some [Some (FQE 1 10)]) 0 0 1 1) 0
              (FQE 2 20) None 1 (fun i => match i with O => 0 | _ => 22 end))
    as (_ & _ & H3 & _).
  destruct (use_after_destroy (fresh 2) 0 (FQE 2 20) None 1 (fun _ => 22))
    as (_ & _ & _ & _ & _ & H6 & H7).
  split; [apply H1; discriminate|].
  split.
  { apply (H3 PT_EPMU _ [Ev Mutex_lock 0; Ev Mutex_lock 22; Ev Mutex_unlock 22;
                         Ev Mutex_unlock 22]). reflexivity. }
  split; [apply H6; discriminate|].
  apply H7. discriminate.
Defined.

(** X4.  In [fq_push], [fq_pop] and [fq_is_empty], an acquisition that
    fails ends the call at once: the code is [PT_EPMTL] for a failed try
    ([block = 0]) and [PT_EPML] for a failed blocking wait, the queue, the
    caller's element and the caller's flag are as before, and no other
    pthread call is made (in particular no unlock). *)
Theorem failed_acquisition_changes_nothing q e e0 v block rc :
  rc 0%nat <> 0 ->
  run (fq_push e block) rc q
  = Some (if block =? 0 then PT_EPMTL else PT_EPML, q,
          [Ev (if block =? 0 then Mutex_trylock else Mutex_lock) (rc 0%nat)]) /\
  run (fq_pop e0 block) rc q
  = Some ((if block =? 0 then PT_EPMTL else PT_EPML, e0), q,
          [Ev (if block =? 0 then Mutex_trylock else Mutex_lock) (rc 0%nat)]) /\
  run (fq_is_empty v block) rc q
  = Some ((if block =? 0 then PT_EPMTL else PT_EPML, v), q,
          [Ev (if block =? 0 then Mutex_trylock else Mutex_lock) (rc 0%nat)]).
Proof.
  intros H0. apply Z.eqb_neq in H0.
  rewrite fq_push_run, fq_pop_run, fq_is_empty_run, H0.
  repeat split.
Qed.

Lemma failed_acquisition_changes_nothing_witness :
  run (fq_push (FQE 1 10) 0) rc_busy (fresh 2)
  = Some (PT_EPMTL, fresh 2, [Ev Mutex_trylock 16]) /\
  run (fq_pop (Some (FQE 9 9)) 0) rc_busy (fresh 2)
  = Some ((PT_EPMTL, Some (FQE 9 9)), fresh 2, [Ev Mutex_trylock 16]) /\
  run (fq_is_empty 7 0) rc_busy (fresh 2)
  = Some ((PT_EPMTL, 7), fresh 2, [Ev Mutex_trylock 16]).
Proof.
  apply (failed_acquisition_changes_nothing (fresh 2) (FQE 1 10)
           (Some (FQE 9 9)) 7 0 rc_busy).
  discriminate.
Defined.

(** X5.  The read-only operations never change the queue, whatever the
    pthread calls return: [fq_is_empty] and [fq_is_full] on any queue, and
    [fq_peek] on a well-formed queue of capacity at least 1, where it also
    always returns (the cell it reads is inside the buffer even when the
    emptiness check was skipped). *)
Theorem read_only_operations q e0 v block rc :
  (exists r tr, run (fq_is_empty v block) rc q = Some (r, q, tr)) /\
  (exists r tr, run (fq_is_full v block) rc q = Some (r, q, tr)) /\
  (fq_wf q -> 0 < max_elements q ->
   exists r tr, run (fq_peek e0 block) rc q = Some (r, q, tr)).
Proof.
  split.
  { rewrite fq_is_empty_run. destruct (rc 0%nat =? 0); eauto. }
  split.
  { rewrite fq_is_full_run. eauto. }
  intros (Hmax & (l & El & Hlen) & Hsz & Hidx) Hcap.
  destruct Hidx as [(H0 & _)|(Hf & Hb)]; [lia|].
  destruct (lookup_lt_is_Some_2 l
              (Z.to_nat (next_index (front q) (max_elements q)))) as [s Hs].
  { pose proof (next_index_range (front q) (max_elements q) Hf (proj2 Hmax)).
    lia. }
  rewrite fq_peek_run, El. cbv zeta. rewrite Hs.
  destruct (rc 1%nat =? 0); [destruct (size q =? 0)|]; eauto.
Qed.

Lemma read_only_operations_witness :
  exists r tr,
    run (fq_peek None 0) (fun _ => 16) (fresh 2) = Some (r, fresh 2, tr).
Proof.
  destruct (read_only_operations (fresh 2) None 0 0 (fun _ => 16))
    as (_ & _ & H).
  apply H.
  - apply fresh_wf. unfold UINT_RANGE. lia.
  - cbn. lia.
Defined.

Lemma released_when_no_unlock_fails tr :
  Forall (fun ev => is_unlock ev = true -> ev_rc ev = 0) tr ->
  released tr = unlock_calls tr.
Proof.
  unfold released, unlock_calls. induction 1 as [|ev tr Hev _ IH]; [reflexivity|].
  cbn [List.filter]. unfold is_released, is_unlock in *.
  destruct (ev_call ev); try exact IH.
  rewrite (Hev eq_refl). cbn. f_equal. exact IH.
Qed.

(** X6.  With a re-entrant lock, a push or a pop on a well-formed queue
    makes exactly one unlock call for each acquisition that succeeded,
    whatever its outcome (success, [PT_EFQFULL], [PT_EFQEMPTY], a failed
    acquisition or a failed release); so when none of its unlock calls
    fails, the lock has been released as often as it was acquired when the
    call returns.  (An unlock that fails may leave it held.) *)
Theorem lock_calls_balanced c rc q :
  fq_wf q -> push_or_pop c -> reentrant rc ->
  exists r q' tr,
    exec c rc q = Some (r, q', tr) /\
    acquired tr = unlock_calls tr /\
    (Forall (fun ev => is_unlock ev = true -> ev_rc ev = 0) tr ->
     released tr = acquired tr).
Proof.
  intros Hwf Hc Hre.
  destruct (exec_preserves_wf c rc q Hwf Hc Hre) as (r & q' & tr & E & _).
  exists r, q', tr. split; [exact E|].
  assert (Hbal : acquired tr = unlock_calls tr).
  { destruct c as [e block|block|block]; [| |destruct Hc]; unfold exec in E.
    - rewrite fq_push_run in E. cbv zeta in E.
      destruct (Z.eqb_spec (rc 0%nat) 0) as [E0|N0].
      + pose proof (Hre E0) as E1. rewrite E0, E1 in E. cbn [Z.eqb] in E.
        split_run E; try discriminate; injection E as <- <- <-;
          unfold acquired, unlock_calls, is_acquired, is_unlock, acq;
          destruct (block =? 0); reflexivity.
      + injection E as <- <- <-.
        unfold acquired, unlock_calls, is_acquired, is_unlock, acq; cbn.
        apply Z.eqb_neq in N0. destruct (block =? 0); cbn; rewrite N0; reflexivity.
    - rewrite fq_pop_run in E. cbv zeta in E.
      destruct (Z.eqb_spec (rc 0%nat) 0) as [E0|N0].
      + pose proof (Hre E0) as E1. rewrite E0, E1 in E. cbn [Z.eqb] in E.
        split_run E; try discriminate; injection E as <- <- <-;
          unfold acquired, unlock_calls, is_acquired, is_unlock, acq;
          destruct (block =? 0); reflexivity.
      + injection E as <- <- <-.
        unfold acquired, unlock_calls, is_acquired, is_unlock, acq; cbn.
        apply Z.eqb_neq in N0. destruct (block =? 0); cbn; rewrite N0; reflexivity. }
  split; [exact Hbal|].
  intros Hok. rewrite Hbal. apply released_when_no_unlock_fails, Hok.
Qed.

Lemma lock_calls_balanced_witness :
  (exists r q' tr,
     exec (Push (FQE 1 10) 1) rc_unlock_fails (fresh 2) = Some (r, q', tr) /\
     acquired tr = unlock_calls tr /\
     (Forall (fun ev => is_unlock ev = true -> ev_rc ev = 0) tr ->
      released tr = acquired tr)) /\
  (exists r q',
     exec (Pop 0) rc_ok (fresh 2)
     = Some (r, q', [Ev Mutex_trylock 0; Ev Mutex_trylock 0; Ev Mutex_unlock 0;
                     Ev Mutex_unlock 0]) /\
     released [Ev Mutex_trylock 0; Ev Mutex_trylock 0; Ev Mutex_unlock 0;
               Ev Mutex_unlock 0]
     = acquired [Ev Mutex_trylock 0; Ev Mutex_trylock 0; Ev Mutex_unlock 0;
                 Ev Mutex_unlock 0]).
Proof.
  split.
  - apply (lock_calls_balanced (Push (FQE 1 10) 1) rc_unlock_fails (fresh 2)).
    + apply fresh_wf. unfold UINT_RANGE. lia.
    + exact I.
    + intros _. reflexivity.
  - destruct (lock_calls_balanced (Pop 0) rc_ok (fresh 2))
      as (r & q' & tr & E & _ & Hrel).
    + apply fresh_wf. unfold UINT_RANGE. lia.
    + exact I.
    + intros _. reflexivity.
    + cbn in E. injection E as <- <- <-.
      do 2 eexists. split; [reflexivity|].
      apply Hrel. repeat constructor.
Defined.

(** X7.  On a well-formed queue, with the lock calls succeeding, the two
    queries tell what the next pop and the next push will answer:
    [fq_is_empty] writes 1 exactly when the queue holds no live task and a
    pop returns [PT_EFQEMPTY], 0 when the pop succeeds; [fq_is_full]
    writes 1 exactly when the live tasks fill the capacity and a push
    returns [PT_EFQFULL], 0 when the push succeeds. *)
Theorem flags_predict_outcomes q e v block rc :
  fq_wf q -> locks_ok rc ->
  exists fe ff rpop rpush qpop qpush tr1 tr2 tr3 tr4,
    run (fq_is_empty v block) rc q = Some ((PT_SUCCESS, fe), q, tr1) /\
    run (fq_is_full v block) rc q = Some ((PT_SUCCESS, ff), q, tr2) /\
    exec (Pop block) rc q = Some (rpop, qpop, tr3) /\
    exec (Push e block) rc q = Some (rpush, qpush, tr4) /\
    (fe = 1 /\ fst rpop = PT_EFQEMPTY \/ fe = 0 /\ fst rpop = PT_SUCCESS) /\
    (ff = 1 /\ fst rpush = PT_EFQFULL \/ ff = 0 /\ fst rpush = PT_SUCCESS) /\
    (fe = 1 <-> contents q = []) /\
    (ff = 1 <-> Z.of_nat (length (contents q)) = max_elements q).
Proof.
  intros Hwf Hrc.
  pose proof (contents_length q Hwf) as Hlen.
  assert (Hsz : 0 <= size q <= max_elements q) by (destruct Hwf as (_ & _ & ? & _); auto).
  exists (Z.b2z (size q =? 0)), (Z.b2z (size q =? max_elements q)).
  assert (Hpop : exists rpop qpop tr3,
             exec (Pop block) rc q = Some (rpop, qpop, tr3) /\
             (Z.b2z (size q =? 0) = 1 /\ fst rpop = PT_EFQEMPTY \/
              Z.b2z (size q =? 0) = 0 /\ fst rpop = PT_SUCCESS)).
  { destruct (Z.eqb_spec (size q) 0) as [E|N].
    - do 3 eexists. split; [apply pop_when_empty; assumption|]. left. auto.
    - destruct (exec_pop_ok q block rc Hwf Hrc) as (s & q' & tr & E & _); [lia|].
      do 3 eexists. split; [exact E|]. right. auto. }
  assert (Hpush : exists rpush qpush tr4,
             exec (Push e block) rc q = Some (rpush, qpush, tr4) /\
             (Z.b2z (size q =? max_elements q) = 1 /\ fst rpush = PT_EFQFULL \/
              Z.b2z (size q =? max_elements q) = 0 /\ fst rpush = PT_SUCCESS)).
  { destruct (Z.eqb_spec (size q) (max_elements q)) as [E|N].
    - do 3 eexists. unfold exec.
      rewrite (push_when_full q e block rc Hrc E). split; [reflexivity|].
      left. auto.
    - destruct (exec_push_ok q e block rc Hwf Hrc) as (q' & tr & E & _); [lia|].
      do 3 eexists. split; [exact E|]. right. auto. }
  destruct Hpop as (rpop & qpop & tr3 & Epop & Hpop).
  destruct Hpush as (rpush & qpush & tr4 & Epush & Hpush).
  exists rpop, rpush, qpop, qpush. do 2 eexists. exists tr3, tr4.
  split; [rewrite fq_is_empty_run, (Hrc 0%nat), (Hrc 1%nat); reflexivity|].
  split; [rewrite fq_is_full_run, (Hrc 1%nat); reflexivity|].
  split; [exact Epop|]. split; [exact Epush|].
  split; [exact Hpop|]. split; [exact Hpush|].
  split.
  - rewrite <- length_zero_iff_nil, Hlen.
    destruct (Z.eqb_spec (size q) 0); cbn; split; intros; try lia; discriminate.
  - rewrite Hlen.
    destruct (Z.eqb_spec (size q) (max_elements q)); cbn; split; intros;
      try lia; discriminate.
Qed.

Lemma flags_predict_outcomes_witness :
  exists fe ff rpop rpush qpop qpush tr1 tr2 tr3 tr4,
    run (fq_is_empty 0 1) rc_ok (fresh 2) = Some ((PT_SUCCESS, fe), fresh 2, tr1) /\
    run (fq_is_full 0 1) rc_ok (fresh 2) = Some ((PT_SUCCESS, ff), fresh 2, tr2) /\
    exec (Pop 1) rc_ok (fresh 2) = Some (rpop, qpop, tr3) /\
    exec (Push (FQE 1 10) 1) rc_ok (fresh 2) = Some (rpush, qpush, tr4) /\
    (fe = 1 /\ fst rpop = PT_EFQEMPTY \/ fe = 0 /\ fst rpop = PT_SUCCESS) /\
    (ff = 1 /\ fst rpush = PT_EFQFULL \/ ff = 0 /\ fst rpush = PT_SUCCESS) /\
    (fe = 1 <-> contents (fresh 2) = []) /\
    (ff = 1 <-> Z.of_nat (length (contents (fresh 2))) = max_elements (fresh 2)).
Proof.
  apply (flags_predict_outcomes (fresh 2) (FQE 1 10) 0 1 rc_ok).
  - apply fresh_wf. unfold UINT_RANGE. lia.
  - intros i. reflexivity.
Defined.

(** One call of the circular buffer does what the ideal queue does. *)
Lemma exec_refines q c rc :
  fq_wf q -> locks_ok rc ->
  exists q' tr,
    exec c rc q
    = Some (fst (model_step (max_elements q) c (contents q)), q', tr) /\
    fq_wf q' /\
    max_elements q' = max_elements q /\
    contents q' = snd (model_step (max_elements q) c (contents q)).
Proof.
  intros Hwf Hrc.
  pose proof (contents_length q Hwf) as Hlen.
  assert (Hsz : 0 <= size q <= max_elements q)
    by (destruct Hwf as (_ & _ & ? & _); auto).
  destruct c as [e b|b|b]; cbn [model_step].
  - rewrite Hlen, Z2Nat.id by lia.
    destruct (Z.eqb_spec (size q) (max_elements q)) as [E|N].
    + do 2 eexists. unfold exec. rewrite (push_when_full q e b rc Hrc E).
      cbn. auto.
    + destruct (exec_push_ok q e b rc Hwf Hrc)
        as (q' & tr & E & Hwf' & Hm & Hc & _); [lia|].
      exists q', tr. cbn. auto.
  - destruct (Z.eqb_spec (size q) 0) as [E|N].
    + rewrite (contents_empty q Hwf E).
      do 2 eexists. unfold exec. rewrite (pop_when_empty q None b rc Hrc E).
      cbn. rewrite (contents_empty q Hwf E). auto.
    + destruct (exec_pop_ok q b rc Hwf Hrc)
        as (s & q' & tr & E & Hwf' & Hm & Hc & _); [lia|].
      rewrite Hc. exists q', tr. cbn. auto.
  - destruct (Z.eqb_spec (size q) 0) as [E|N].
    + rewrite (contents_empty q Hwf E).
      exists q. eexists. unfold exec.
      rewrite fq_peek_run, (Hrc 1%nat), (Hrc 2%nat), (Hrc 3%nat), E. cbn.
      split; [reflexivity|]. rewrite (contents_empty q Hwf E). auto.
    + destruct (exec_peek_ok q b rc Hwf Hrc) as (l & s & tr & _ & _ & E & Hc);
        [lia|].
      rewrite Hc. exists q, tr. unfold exec. rewrite E. cbn. auto.
Qed.

Lemma run_calls_refine cs : forall q,
  fq_wf q -> Forall (fun c => locks_ok (snd c)) cs ->
  exists q',
    run_calls cs q
    = Some (fst (model_run (max_elements q) (map fst cs) (contents q)), q') /\
    fq_wf q' /\
    max_elements q' = max_elements q /\
    contents q' = snd (model_run (max_elements q) (map fst cs) (contents q)).
Proof.
  induction cs as [|[c rc] cs IH]; intros q Hwf Hcs.
  - exists q. cbn. auto.
  - apply Forall_cons in Hcs. destruct Hcs as [Hrc Hcs]. cbn in Hrc.
    destruct (exec_refines q c rc Hwf Hrc) as (q1 & tr & E & Hwf1 & Hm1 & Hc1).
    destruct (IH q1 Hwf1 Hcs) as (q' & E' & Hwf' & Hm' & Hc').
    exists q'. cbn [run_calls map fst model_run]. rewrite E, E'.
    rewrite Hm1, Hc1 in *.
    destruct (model_step (max_elements q) c (contents q)) as [r l1]. cbn [fst snd] in *.
    destruct (model_run (max_elements q) (map fst cs) l1) as [rs l2]. cbn [fst snd] in *.
    split; [reflexivity|]. split; [exact Hwf'|]. split; [congruence|exact Hc'].
Qed.

(** X8.  Refinement: on a well-formed queue, with the lock calls
    succeeding, any sequence of pushes, pops and peeks returns exactly what
    an ideal bounded FIFO list of the same capacity returns, call by call,
    and the live tasks of the buffer afterwards are the list the ideal
    queue ends with. *)
Theorem queue_refines_list cs q :
  fq_wf q -> Forall (fun c => locks_ok (snd c)) cs ->
  exists q',
    run_calls cs q
    = Some (fst (model_run (max_elements q) (map fst cs) (contents q)), q') /\
    fq_wf q' /\
    max_elements q' = max_elements q /\
    contents q' = snd (model_run (max_elements q) (map fst cs) (contents q)).
Proof. apply run_calls_refine. Qed.

Lemma queue_refines_list_witness :
  exists q',
    run_calls [(Push (FQE 1 10) 1, rc_ok); (Peek 0, rc_ok); (Push (FQE 2 20) 0, rc_ok);
               (Pop 1, rc_ok); (Push (FQE 3 30) 1, rc_ok); (Push (FQE 4 40) 1, rc_ok)]
              (fresh 2)
    = Some (fst (model_run 2 [Push (FQE 1 10) 1; Peek 0; Push (FQE 2 20) 0;
                              Pop 1; Push (FQE 3 30) 1; Push (FQE 4 40) 1] []),
            q') /\
    fq_wf q' /\
    max_elements q' = 2 /\
    contents q' = snd (model_run 2 [Push (FQE 1 10) 1; Peek 0; Push (FQE 2 20) 0;
                                    Pop 1; Push (FQE 3 30) 1; Push (FQE 4 40) 1] []).
Proof.
  apply (queue_refines_list
           [(Push (FQE 1 10) 1, rc_ok); (Peek 0, rc_ok); (Push (FQE 2 20) 0, rc_ok);
            (Pop 1, rc_ok); (Push (FQE 3 30) 1, rc_ok); (Push (FQE 4 40) 1, rc_ok)]
           (fresh 2)).
  - apply fresh_wf. unfold UINT_RANGE. lia.
  - repeat constructor; intros i; reflexivity.
Defined.

(** The ideal queue hands out only what it was given. *)
Lemma model_run_sound N (P : function_queue_element -> Prop) cs : forall l,
  Forall (fun s => exists e, s = Some e /\ P e) l ->
  (forall e b, In (Push e b) cs -> P e) ->
  Forall2 (fun c r => match c with
                      | Push _ _ => True
                      | _ => fst r = PT_SUCCESS -> exists e, snd r = Some e /\ P e
                      end)
          cs (fst (model_run N cs l)).
Proof.
  induction cs as [|c cs IH]; intros l Hl HP; [constructor|].
  assert (HP' : forall e b, In (Push e b) cs -> P e)
    by (intros e b Hin; apply (HP e b); right; exact Hin).
  cbn [model_run].
  destruct (model_step N c l) as [r l1] eqn:Es.
  destruct (model_run N cs l1) as [rs l2] eqn:Er.
  cbn [fst].
  assert (Hl1 : Forall (fun s => exists e, s = Some e /\ P e) l1).
  { destruct c as [e b|b|b]; cbn in Es.
    - destruct (Z.of_nat (length l) =? N); injection Es as <- <-; [exact Hl|].
      apply Forall_app. split; [exact Hl|].
      constructor; [|constructor]. exists e. split; [reflexivity|].
      apply (HP e b). left. reflexivity.
    - destruct l as [|s l']; injection Es as <- <-; [exact Hl|].
      apply Forall_cons in Hl. apply Hl.
    - destruct l as [|s l']; injection Es as <- <-; exact Hl. }
  constructor.
  - destruct c as [e b|b|b]; [exact I| |]; cbn in Es;
      (destruct l as [|s l']; injection Es as <- <-; cbn; [discriminate|]);
      intros _; apply Forall_cons in Hl; apply Hl.
  - specialize (IH l1 Hl1 HP'). rewrite Er in IH. exact IH.
Qed.

Lemma Forall2_through_map {A B C} (R : B -> C -> Prop) (f : A -> B) l : forall k,
  Forall2 R (map f l) k -> Forall2 (fun x y => R (f x) y) l k.
Proof.
  induction l as [|x l IH]; intros k H; inversion H; subst; constructor; auto.
Qed.

(** X9.  No fabrication: on a queue that [fq_init] constructed, with the
    lock calls succeeding, every pop and every peek of a sequence that
    returns [PT_SUCCESS] hands out a task that some push of the sequence
    put in, never a cell that was not written. *)
Theorem pops_return_pushed_tasks env q0 N q cs :
  0 <= N < UINT_RANGE ->
  fq_init env q0 N = (PT_SUCCESS, q) ->
  Forall (fun c => locks_ok (snd c)) cs ->
  exists rs q',
    run_calls cs q = Some (rs, q') /\
    Forall2 (fun c r => match fst c with
                        | Push _ _ => True
                        | _ => fst r = PT_SUCCESS ->
                               exists e b, snd r = Some e /\
                                           In (Push e b) (map fst cs)
                        end) cs rs.
Proof.
  intros HN Hinit Hcs. apply fq_init_success in Hinit. subst q.
  destruct (run_calls_refine cs (fresh N) (fresh_wf N HN) Hcs)
    as (q' & E & _).
  eexists. exists q'. split; [exact E|].
  rewrite (contents_empty (fresh N) (fresh_wf N HN) eq_refl).
  pose proof (model_run_sound (max_elements (fresh N))
                (fun e => exists b, In (Push e b) (map fst cs))
                (map fst cs) [] (List.Forall_nil _)) as H.
  specialize (H (fun e b Hin => ex_intro _ b Hin)).
  apply Forall2_through_map in H.
  eapply Forall2_impl; [exact H|].
  intros [c rc] r Hcr. cbn in *. destruct c; [exact I| |]; intros Hs;
    destruct (Hcr Hs) as (e & He & b & Hb); exists e, b; auto.
Qed.

Lemma pops_return_pushed_tasks_witness :
  exists rs q',
    run_calls [(Pop 1, rc_ok); (Push (FQE 1 10) 1, rc_ok); (Peek 0, rc_ok);
               (Pop 1, rc_ok)] (fresh 2) = Some (rs, q') /\
    Forall2 (fun c r => match fst c with
                        | Push _ _ => True
                        | _ => fst r = PT_SUCCESS ->
                               exists e b,
                                 snd r = Some e /\
                                 In (Push e b)
                                    (map fst [(Pop 1, rc_ok);
                                              (Push (FQE 1 10) 1, rc_ok);
                                              (Peek 0, rc_ok); (Pop 1, rc_ok)])
                        end)
            [(Pop 1, rc_ok); (Push (FQE 1 10) 1, rc_ok); (Peek 0, rc_ok);
             (Pop 1, rc_ok)] rs.
Proof.
  apply (pops_return_pushed_tasks env_ok (fresh 0) 2 (fresh 2)).
  - unfold UINT_RANGE. lia.
  - reflexivity.
  - repeat constructor; intros i; reflexivity.
Defined.

Lemma exec_with_block b c rc q :
  rc 0%nat = 0 ->
  match exec (with_block b c) rc q with
  | Some (r, q', _) => Some (r, q')
  | None => None
  end
  = match exec c rc q with
    | Some (r, q', _) => Some (r, q')
    | None => None
    end.
Proof.
  intros H0. destruct c as [e b'|b'|b']; unfold exec, with_block.
  - rewrite !fq_push_run, H0. cbv zeta.
    destruct (size q =? max_elements q); [reflexivity|].
    destruct (elements q) as [l|]; [|reflexivity].
    match goal with |- context [(?a <? ?n)%nat] => destruct (a <? n)%nat end;
      reflexivity.
  - rewrite !fq_pop_run, H0. cbv zeta.
    destruct (elements q) as [l|];
      [destruct (l !! Z.to_nat (next_index (front q) (max_elements q)))|];
      destruct (rc 1%nat =? 0); try destruct (size q =? 0); reflexivity.
  - rewrite !fq_peek_run. cbv zeta.
    destruct (elements q) as [l|];
      [destruct (l !! Z.to_nat (next_index (front q) (max_elements q)))|];
      destruct (rc 1%nat =? 0); try destruct (size q =? 0); reflexivity.
Qed.

(** X10.  As long as the acquisitions succeed, the [block] flag makes no
    difference: a sequence of calls returns the same codes and elements and
    leaves the same queue when the flags of all its calls are replaced by
    any one flag.  Neither mode waits for room or for a task. *)
Theorem block_flag_is_irrelevant b cs : forall q,
  Forall (fun c => snd c 0%nat = 0) cs ->
  run_calls (map (fun c => (with_block b (fst c), snd c)) cs) q
  = run_calls cs q.
Proof.
  induction cs as [|[c rc] cs IH]; intros q Hcs; [reflexivity|].
  apply Forall_cons in Hcs. destruct Hcs as [H0 Hcs]. cbn in H0.
  cbn [map fst snd run_calls].
  pose proof (exec_with_block b c rc q H0) as E.
  destruct (exec (with_block b c) rc q) as [[[r1 q1] tr1]|];
    destruct (exec c rc q) as [[[r2 q2] tr2]|]; try discriminate E;
    [|reflexivity].
  injection E as <- <-. rewrite (IH q1 Hcs). reflexivity.
Qed.

Lemma block_flag_is_irrelevant_witness :
  run_calls (map (fun c => (with_block 0 (fst c), snd c))
                 [(Push (FQE 1 10) 1, rc_ok); (Pop 1, rc_unlock_fails)])
            (fresh 2)
  = run_calls [(Push (FQE 1 10) 1, rc_ok); (Pop 1, rc_unlock_fails)] (fresh 2).
Proof.
  apply (block_flag_is_irrelevant 0
           [(Push (FQE 1 10) 1, rc_ok); (Pop 1, rc_unlock_fails)] (fresh 2)).
  repeat constructor.
Defined.

(** X11.  [fq_pop] and [fq_peek] do not look at what [fq_is_empty]
    returns.  When its nested acquisition fails, the flag stays 0 and the
    emptiness check is skipped: on a well-formed empty queue of capacity at
    least 1 the pop does not answer [PT_EFQEMPTY] but hands out the cell
    after [front], and [size] wraps to [UINT_RANGE - 1], which breaks the
    representation invariant; the peek hands out the same cell. *)
Theorem nested_lock_failure_skips_check q e0 block rc :
  fq_wf q -> 0 < max_elements q -> size q = 0 ->
  rc 1%nat <> 0 ->
  exists l s,
    elements q = Some l /\
    l !! Z.to_nat ((front q + 1) mod max_elements q) = Some s /\
    (exists tr,
       run (fq_peek e0 block) rc q
       = Some ((if rc 2%nat =? 0 then PT_SUCCESS else PT_EPMU, s), q, tr)) /\
    (rc 0%nat = 0 ->
     exists q' tr,
       run (fq_pop e0 block) rc q
       = Some ((if rc 2%nat =? 0 then PT_SUCCESS else PT_EPMU, s), q', tr) /\
       size q' = UINT_RANGE - 1 /\
       ~ fq_wf q').
Proof.
  intros (Hmax & (l & El & Hlen) & Hsz & Hidx) Hcap Hempty H1.
  destruct Hidx as [(H0 & _)|(Hf & Hb)]; [lia|].
  assert (Hn : 0 <= (front q + 1) mod max_elements q < max_elements q)
    by (apply Z.mod_pos_bound; lia).
  destruct (lookup_lt_is_Some_2 l (Z.to_nat ((front q + 1) mod max_elements q)))
    as [s Hs]; [lia|].
  apply Z.eqb_neq in H1.
  exists l, s. split; [exact El|]. split; [exact Hs|]. split.
  - eexists. rewrite fq_peek_run, H1, El. cbv zeta.
    rewrite next_index_mod, Hs by lia. reflexivity.
  - intros H0. do 2 eexists.
    rewrite fq_pop_run, H0, H1, El. cbn -[Z.to_nat u32 UINT_RANGE].
    rewrite next_index_mod, Hs by lia.
    split; [reflexivity|]. cbn -[UINT_RANGE]. rewrite Hempty.
    split; [reflexivity|].
    intros (_ & _ & Hs' & Hidx'). cbn -[UINT_RANGE] in Hs', Hidx'.
    change (u32 (0 - 1)) with (UINT_RANGE - 1) in Hs', Hidx'.
    destruct Hidx' as [(Hm0 & _)|(_ & Hb')]; [lia|].
    assert (HM : UINT_RANGE - 1 = max_elements q) by lia.
    rewrite HM in Hb'.
    replace ((front q + 1) mod max_elements q + max_elements q)
      with ((front q + 1) mod max_elements q + 1 * max_elements q) in Hb' by lia.
    rewrite Z_mod_plus_full, Z.mod_mod in Hb' by lia.
    rewrite Hb, Hempty, Z.add_0_r, (Z.mod_small (front q)) in Hb' by lia.
    destruct (Z.eq_dec (front q + 1) (max_elements q)) as [E|E].
    + rewrite E, Z_mod_same_full in Hb'. unfold UINT_RANGE in HM. lia.
    + rewrite Z.mod_small in Hb' by lia. lia.
Qed.

Lemma nested_lock_failure_skips_check_witness :
  exists l s,
    elements (fresh 2) = Some l /\
    l !! Z.to_nat ((0 + 1) mod 2) = Some s /\
    (exists tr,
       run (fq_peek None 0) (fun i => match i with 1%nat => 11 | _ => 0 end)
           (fresh 2)
       = Some ((PT_SUCCESS, s), fresh 2, tr)) /\
    (exists q' tr,
       run (fq_pop None 0) (fun i => match i with 1%nat => 11 | _ => 0 end)
           (fresh 2)
       = Some ((PT_SUCCESS, s), q', tr) /\
       size q' = UINT_RANGE - 1 /\
       ~ fq_wf q').
Proof.
  destruct (nested_lock_failure_skips_check (fresh 2) None 0
              (fun i => match i with 1%nat => 11 | _ => 0 end))
    as (l & s & El & Hs & Hpeek & Hpop).
  - apply fresh_wf. unfold UINT_RANGE. lia.
  - cbn. lia.
  - reflexivity.
  - discriminate.
  - exists l, s. split; [exact El|]. split; [exact Hs|].
    split; [exact Hpeek|]. apply Hpop. reflexivity.
Defined.

(** X12.  On a queue that [fq_init] constructed with capacity [N >= 1],
    after any sequence of pushes and pops (any block flags, any outcomes
    of the lock and unlock calls, the lock being re-entrant) the buffer
    still has [N] cells, [front] and [back] are indices of the buffer, and
    [back] is [size] cells after [front] modulo [N]. *)
Theorem indices_within_buffer env q0 N q cs :
  0 < N < UINT_RANGE ->
  fq_init env q0 N = (PT_SUCCESS, q) ->
  Forall (fun c => push_or_pop (fst c) /\ reentrant (snd c)) cs ->
  exists rs q' l,
    run_calls cs q = Some (rs, q') /\
    elements q' = Some l /\ Z.of_nat (length l) = N /\
    0 <= front q' < N /\ 0 <= back q' < N /\
    back q' = (front q' + size q') mod N.
Proof.
  intros HN Hinit Hcs. apply fq_init_success in Hinit. subst q.
  destruct (run_calls_preserve_wf cs (fresh N)) as (rs & q' & E & Hwf & Hm).
  - apply fresh_wf. lia.
  - exact Hcs.
  - cbn in Hm. destruct Hwf as (Hmax & (l & El & Hlen) & Hsz & Hidx).
    rewrite Hm in *.
    destruct Hidx as [(H0 & _)|(Hf & Hb)]; [lia|].
    exists rs, q', l. repeat (split; [assumption|]).
    split; [|exact Hb]. rewrite Hb. apply Z.mod_pos_bound. lia.
Qed.

Lemma indices_within_buffer_witness :
  exists rs q' l,
    run_calls [(Push (FQE 1 2) 1, rc_unlock_fails); (Pop 0, rc_busy);
               (Pop 1, rc_ok); (Push (FQE 3 4) 0, rc_ok)] (fresh 2)
    = Some (rs, q') /\
    elements q' = Some l /\ Z.of_nat (length l) = 2 /\
    0 <= front q' < 2 /\ 0 <= back q' < 2 /\
    back q' = (front q' + size q') mod 2.
Proof.
  apply (indices_within_buffer env_ok (fresh 0) 2 (fresh 2)).
  - unfold UINT_RANGE. lia.
  - reflexivity.
  - repeat constructor; cbn; discriminate.
Defined.

(** ** Properties of [threading_queue.c] *)

(** One turn of the worker on a well-formed queue, the lock calls
    succeeding. *)
Lemma get_and_run_turn_ok q fqe rc ts :
  fq_wf q -> contents q = map Some ts -> locks_ok rc ->
  exists fqe' q',
    get_and_run_turn fqe rc q = Some (fqe', q', hd_error ts) /\
    fq_wf q' /\ contents q' = map Some (tl ts).
Proof.
  intros Hwf Hc Hrc.
  pose proof (contents_length q Hwf) as Hlen. rewrite Hc, length_map in Hlen.
  assert (Hsz : 0 <= size q) by (destruct Hwf as (_ & _ & ? & _); lia).
  destruct ts as [|t ts]; cbn [hd_error tl map length] in *.
  - exists fqe, q. unfold get_and_run_turn.
    rewrite (pop_when_empty q fqe 1 rc Hrc) by lia. cbn. auto.
  - destruct (pop_step q fqe 1 rc Hwf (Hrc 0%nat)) as (l & s & tr & El & Hs & E);
      [lia|].
    rewrite (Hrc 1%nat), (Hrc 3%nat) in E. cbn in E.
    pose proof (popped_contents q l s Hwf El ltac:(lia) Hs) as Hc'.
    rewrite Hc in Hc'. injection Hc' as <- Hc'.
    do 2 eexists. unfold get_and_run_turn. rewrite E. cbn.
    split; [reflexivity|]. split; [apply popped_wf; [assumption..|lia]|].
    symmetry. exact Hc'.
Qed.

Lemma get_and_run_ok rcs : forall q fqe ts,
  fq_wf q -> contents q = map Some ts -> Forall locks_ok rcs ->
  exists fqe' q',
    get_and_run rcs fqe q = Some (take (length rcs) ts, fqe', q') /\
    fq_wf q' /\ contents q' = map Some (drop (length rcs) ts).
Proof.
  induction rcs as [|rc rcs IH]; intros q fqe ts Hwf Hc Hrcs.
  - exists fqe, q. cbn. rewrite drop_0. auto.
  - apply Forall_cons in Hrcs. destruct Hrcs as [Hrc Hrcs].
    destruct (get_and_run_turn_ok q fqe rc ts Hwf Hc Hrc)
      as (fqe1 & q1 & E1 & Hwf1 & Hc1).
    destruct (IH q1 fqe1 (tl ts) Hwf1 Hc1 Hrcs) as (fqe' & q' & E' & Hwf' & Hc').
    exists fqe', q'. cbn [get_and_run length]. rewrite E1, E'.
    destruct ts as [|t ts]; cbn [hd_error tl] in *.
    + rewrite take_nil, drop_nil in *. auto.
    + cbn [take drop]. auto.
Qed.

(** X13.  A worker drains in FIFO order: on a well-formed queue whose live
    tasks are [ts], with the lock calls succeeding, the first [k] turns of
    [get_and_run] run the first [k] tasks of [ts] in order, each once
    (all of them and nothing more when [k] exceeds their number, whatever
    the local [fqe] held), and leave the remaining tasks in the queue. *)
Theorem worker_runs_tasks_in_order rcs q fqe ts :
  fq_wf q -> contents q = map Some ts -> Forall locks_ok rcs ->
  exists fqe' q',
    get_and_run rcs fqe q = Some (take (length rcs) ts, fqe', q') /\
    fq_wf q' /\ contents q' = map Some (drop (length rcs) ts).
Proof. apply get_and_run_ok. Qed.

Lemma worker_runs_tasks_in_order_witness :
  exists fqe' q',
    get_and_run [rc_ok; rc_ok; rc_ok] None
                (FQ (Some [Some (FQE 2 20); None; Some (FQE 1 10)]) 1 0 2 3)
    = Some (take 3 [FQE 1 10; FQE 2 20], fqe', q') /\
    fq_wf q' /\ contents q' = map Some (drop 3 [FQE 1 10; FQE 2 20]).
Proof.
  apply (worker_runs_tasks_in_order [rc_ok; rc_ok; rc_ok]
           (FQ (Some [Some (FQE 2 20); None; Some (FQE 1 10)]) 1 0 2 3) None
           [FQE 1 10; FQE 2 20]).
  - unfold fq_wf, UINT_RANGE. cbn.
    split; [lia|]. split; [eauto|]. split; [lia|]. right.
    split; [lia|reflexivity].
  - reflexivity.
  - repeat constructor; intros i; reflexivity.
Defined.

(** X14.  A worker loses the task when the release in [fq_pop] fails: the
    pop has removed the oldest task from the queue but returns [PT_EPMU],
    so the turn runs nothing; the task only stays in the local [fqe] and
    the following turns, with the lock calls succeeding, run the tasks
    behind it. *)
Theorem worker_drops_task_when_unlock_fails q fqe rc rcs t ts :
  fq_wf q -> contents q = map Some (t :: ts) ->
  rc 0%nat = 0 -> rc 1%nat = 0 -> rc 3%nat <> 0 ->
  Forall locks_ok rcs ->
  exists q1 fqe' q',
    get_and_run_turn fqe rc q = Some (Some t, q1, None) /\
    contents q1 = map Some ts /\
    get_and_run (rc :: rcs) fqe q = Some (take (length rcs) ts, fqe', q').
Proof.
  intros Hwf Hc H0 H1 H3 Hrcs.
  pose proof (contents_length q Hwf) as Hlen.
  rewrite Hc, length_map in Hlen. cbn [length] in Hlen.
  destruct (pop_step q fqe 1 rc Hwf H0) as (l & s & tr & El & Hs & E); [lia|].
  apply Z.eqb_neq in H3. rewrite H1 in E. cbn [Z.eqb] in E.
  rewrite H3 in E.
  pose proof (popped_contents q l s Hwf El ltac:(lia) Hs) as Hc'.
  rewrite Hc in Hc'. cbn [map] in Hc'. injection Hc' as <- Hc'.
  assert (Hwf1 : fq_wf (FQ (Some l) ((front q + 1) mod max_elements q) (back q)
                           (size q - 1) (max_elements q)))
    by (apply popped_wf; [assumption..|lia]).
  destruct (get_and_run_ok rcs _ (Some t) ts Hwf1 (eq_sym Hc') Hrcs)
    as (fqe' & q' & E' & _).
  eexists. exists fqe', q'.
  assert (Et : get_and_run_turn fqe rc q
               = Some (Some t,
                       FQ (Some l) ((front q + 1) mod max_elements q) (back q)
                          (size q - 1) (max_elements q), None))
    by (unfold get_and_run_turn; rewrite E; reflexivity).
  split; [exact Et|]. split; [symmetry; exact Hc'|].
  cbn [get_and_run]. rewrite Et, E'. reflexivity.
Qed.

Lemma worker_drops_task_when_unlock_fails_witness :
  exists q1 fqe' q',
    get_and_run_turn None rc_unlock_fails
                     (FQ (Some [Some (FQE 2 20); None; Some (FQE 1 10)]) 1 0 2 3)
    = Some (Some (FQE 1 10), q1, None) /\
    contents q1 = map Some [FQE 2 20] /\
    get_and_run (rc_unlock_fails :: [rc_ok; rc_ok]) None
                (FQ (Some [Some (FQE 2 20); None; Some (FQE 1 10)]) 1 0 2 3)
    = Some (take (length [rc_ok; rc_ok]) [FQE 2 20], fqe', q').
Proof.
  apply (worker_drops_task_when_unlock_fails
           (FQ (Some [Some (FQE 2 20); None; Some (FQE 1 10)]) 1 0 2 3)
           None rc_unlock_fails [rc_ok; rc_ok] (FQE 1 10) [FQE 2 20]).
  - unfold fq_wf, UINT_RANGE. cbn.
    split; [lia|]. split; [eauto|]. split; [lia|]. right.
    split; [lia|reflexivity].
  - reflexivity.
  - reflexivity.
  - reflexivity.
  - discriminate.
  - repeat constructor; intros i; reflexivity.
Defined.

(** The loop of [tq_start] on a block that has the cells it is going to
    fill. *)
Lemma tq_start_loop_ok create n : forall i ths ret,
  (i + n <= length ths)%nat ->
  ret + Z.of_nat n <= INT_MAX ->
  exists ths',
    tq_start_loop create n i ths ret
    = Some (ths', ret + Z.of_nat (length (spawned create i n))) /\
    length ths' = length ths /\
    (forall j, (i <= j < i + n)%nat ->
               ths' !! j = if fst (create j) =? 0
                           then Some (Some (snd (create j))) else ths !! j) /\
    (forall j, (j < i \/ i + n <= j)%nat -> ths' !! j = ths !! j).
Proof.
  induction n as [|n IH]; intros i ths ret Hlen Hret.
  - exists ths. cbn. rewrite Z.add_0_r.
    split; [reflexivity|]. split; [reflexivity|].
    split; [intros j Hj; lia|reflexivity].
  - cbn [tq_start_loop]. unfold spawned in *. cbn [seq List.filter].
    destruct (Nat.ltb_spec i (length ths)) as [_|Hge]; [|lia].
    destruct (Z.eqb_spec (fst (create i)) 0) as [E|E].
    + destruct (Z.leb_spec (ret + 1) INT_MAX) as [_|Hgt]; [|lia].
      destruct (IH (S i) (<[i := Some (snd (create i))]> ths) (ret + 1))
        as (ths' & Erun & Hl & Hin & Hout);
        [rewrite length_insert; lia|lia|].
      exists ths'. rewrite Erun. cbn [length].
      split; [f_equal; f_equal; lia|].
      rewrite length_insert in Hl. split; [exact Hl|]. split.
      * intros j Hj. destruct (Nat.eq_dec j i) as [->|Hne].
        -- rewrite Hout by lia.
           destruct (Z.eqb_spec (fst (create i)) 0); [|contradiction].
           apply list_lookup_insert_eq. lia.
        -- rewrite Hin by lia.
           destruct (fst (create j) =? 0); [reflexivity|].
           apply list_lookup_insert_ne. lia.
      * intros j Hj. rewrite Hout by lia. apply list_lookup_insert_ne. lia.
    + destruct (IH (S i) ths ret) as (ths' & Erun & Hl & Hin & Hout); [lia|lia|].
      exists ths'. rewrite Erun.
      split; [reflexivity|]. split; [exact Hl|]. split.
      * intros j Hj. destruct (Nat.eq_dec j i) as [->|Hne].
        -- rewrite Hout by lia.
           destruct (Z.eqb_spec (fst (create i)) 0); [contradiction|reflexivity].
        -- apply Hin. lia.
      * intros j Hj. apply Hout. lia.
Qed.

Lemma spawned_length create i n : (length (spawned create i n) <= n)%nat.
Proof.
  unfold spawned.
  pose proof (List.filter_length_le (fun j => fst (create j) =? 0) (seq i n)) as H.
  rewrite length_seq in H. exact H.
Qed.

Lemma tq_stop_loop_ok (f : nat -> Z) ths n : forall i,
  (forall j, (i <= j < i + n)%nat -> ths !! j = Some (Some (f j))) ->
  tq_stop_loop n i ths = Some (map f (seq i n)).
Proof.
  induction n as [|n IH]; intros i H; [reflexivity|].
  cbn [tq_stop_loop seq map].
  rewrite (H i) by lia. rewrite (IH (S i)); [reflexivity|].
  intros j Hj. apply H. lia.
Qed.

Lemma tq_stop_loop_unwritten ths n : forall i j,
  (i <= j < i + n)%nat -> ths !! j = Some None ->
  tq_stop_loop n i ths = None.
Proof.
  induction n as [|n IH]; intros i j Hj Hc; [lia|].
  cbn [tq_stop_loop].
  destruct (ths !! i) as [[h|]|] eqn:Ei; try reflexivity.
  destruct (Nat.eq_dec j i) as [->|Hne]; [congruence|].
  rewrite (IH (S i) j); [reflexivity|lia|exact Hc].
Qed.

Lemma spawned_all create n : forall i,
  length (spawned create i n) = n ->
  forall j, (i <= j < i + n)%nat -> fst (create j) = 0.
Proof.
  unfold spawned. induction n as [|n IH]; intros i Hl j Hj; [lia|].
  cbn [seq List.filter] in Hl.
  pose proof (spawned_length create (S i) n) as Hle. unfold spawned in Hle.
  destruct (Z.eqb_spec (fst (create i)) 0) as [E|E]; cbn [length] in Hl; [|lia].
  destruct (Nat.eq_dec j i) as [->|Hne]; [exact E|].
  apply (IH (S i)); lia.
Qed.

Lemma spawned_some_failed create n : forall i,
  (length (spawned create i n) < n)%nat ->
  exists j, (i <= j < i + n)%nat /\ fst (create j) <> 0.
Proof.
  unfold spawned. induction n as [|n IH]; intros i Hl; [lia|].
  cbn [seq List.filter] in Hl.
  destruct (Z.eqb_spec (fst (create i)) 0) as [E|E]; cbn [length] in Hl.
  - destruct (IH (S i)) as (j & Hj & Hf); [lia|]. exists j. split; [lia|exact Hf].
  - exists i. split; [lia|exact E].
Qed.

(** The pool after [tq_init] and [tq_start], cell by cell. *)
Lemma tq_init_start create tqsi :
  0 <= si_max_threads tqsi <= INT_MAX ->
  exists ths',
    tq_start create (snd (tq_init true tqsi))
    = Some (Z.of_nat (length (spawned create 0
                                      (Z.to_nat (si_max_threads tqsi)))),
            TQ (si_fq tqsi) (si_max_threads tqsi) (Live_block ths')) /\
    length ths' = Z.to_nat (si_max_threads tqsi) /\
    (forall j, (j < Z.to_nat (si_max_threads tqsi))%nat ->
               ths' !! j = Some (spawn_result create j)).
Proof.
  intros HM. unfold tq_init, tq_start. cbn [snd max_threads threads fq].
  destruct (Z.to_nat (si_max_threads tqsi)) as [|n] eqn:En.
  - exists []. cbn. split; [reflexivity|]. split; [reflexivity|].
    intros j Hj. lia.
  - destruct (tq_start_loop_ok create (S n) 0 (replicate (S n) None) 0)
      as (ths' & E & Hl & Hin & _).
    + rewrite length_replicate. lia.
    + lia.
    + exists ths'. rewrite E. rewrite Z.add_0_l.
      split; [reflexivity|].
      rewrite length_replicate in Hl. split; [exact Hl|].
      intros j Hj. rewrite Hin by lia. unfold spawn_result.
      destruct (fst (create j) =? 0); [reflexivity|].
      apply lookup_replicate_2. lia.
Qed.

(** X15.  On a pool that [tq_init] set up for [n <= INT_MAX] workers,
    [tq_start] returns the number of cells for which [pthread_create]
    succeeded, between 0 and [n]; each such cell holds the new thread id
    and the others are left unwritten. *)
Theorem tq_start_counts_spawned create tqsi :
  0 <= si_max_threads tqsi <= INT_MAX ->
  exists ret ths',
    tq_start create (snd (tq_init true tqsi))
    = Some (ret, TQ (si_fq tqsi) (si_max_threads tqsi) (Live_block ths')) /\
    ret = Z.of_nat (length (spawned create 0 (Z.to_nat (si_max_threads tqsi)))) /\
    0 <= ret <= si_max_threads tqsi /\
    length ths' = Z.to_nat (si_max_threads tqsi) /\
    (forall j, (j < Z.to_nat (si_max_threads tqsi))%nat ->
               ths' !! j = Some (spawn_result create j)).
Proof.
  intros HM.
  destruct (tq_init_start create tqsi HM) as (ths' & E & Hl & Hc).
  eexists. exists ths'. split; [exact E|]. split; [reflexivity|].
  pose proof (spawned_length create 0 (Z.to_nat (si_max_threads tqsi))).
  split; [lia|]. split; [exact Hl|exact Hc].
Qed.

Lemma tq_start_counts_spawned_witness :
  exists ret ths',
    tq_start (fun j => if Nat.eqb j 1 then (11, 0) else (0, 100 + Z.of_nat j))
             (snd (tq_init true (TQSI 4096 3)))
    = Some (ret, TQ 4096 3 (Live_block ths')) /\
    ret = Z.of_nat (length (spawned
                              (fun j => if Nat.eqb j 1 then (11, 0)
                                        else (0, 100 + Z.of_nat j))
                              0 (Z.to_nat 3))) /\
    0 <= ret <= 3 /\
    length ths' = Z.to_nat 3 /\
    (forall j, (j < Z.to_nat 3)%nat ->
               ths' !! j
               = Some (spawn_result
                         (fun j => if Nat.eqb j 1 then (11, 0)
                                   else (0, 100 + Z.of_nat j)) j)).
Proof.
  apply (tq_start_counts_spawned
           (fun j => if Nat.eqb j 1 then (11, 0) else (0, 100 + Z.of_nat j))
           (TQSI 4096 3)).
  unfold INT_MAX. cbn. lia.
Defined.

(** X16.  [tq_stop] after [tq_init] and [tq_start]: when every spawn
    succeeded ([tq_start] returned [max_threads]), it returns 0 after
    passing the thread ids to [pthread_cancel] in the order of their
    creation; when a spawn failed ([tq_start] returned less), it passes a
    handle that was never written to [pthread_cancel], which is
    undefined. *)
Theorem tq_stop_after_start create tqsi :
  0 <= si_max_threads tqsi <= INT_MAX ->
  exists ret tq,
    tq_start create (snd (tq_init true tqsi)) = Some (ret, tq) /\
    (ret = si_max_threads tqsi ->
     tq_stop tq
     = Some (0, map (fun j => snd (create j))
                    (seq 0 (Z.to_nat (si_max_threads tqsi))))) /\
    (ret < si_max_threads tqsi -> tq_stop tq = None).
Proof.
  intros HM.
  destruct (tq_init_start create tqsi HM) as (ths' & E & Hl & Hc).
  do 2 eexists. split; [exact E|].
  unfold tq_stop. cbn [max_threads threads].
  split.
  - intros Hall.
    destruct (Z.to_nat (si_max_threads tqsi)) as [|n] eqn:En; [reflexivity|].
    rewrite (tq_stop_loop_ok (fun j => snd (create j)) ths' (S n) 0);
      [reflexivity|].
    intros j Hj. rewrite Hc by lia. unfold spawn_result.
    rewrite (spawned_all create (S n) 0); [reflexivity|lia|lia].
  - intros Hless.
    destruct (Z.to_nat (si_max_threads tqsi)) as [|n] eqn:En; [cbn in Hless; lia|].
    destruct (spawned_some_failed create (S n) 0) as (j & Hj & Hf); [lia|].
    rewrite (tq_stop_loop_unwritten ths' (S n) 0 j); [reflexivity|lia|].
    rewrite Hc by lia. unfold spawn_result.
    destruct (Z.eqb_spec (fst (create j)) 0); [contradiction|reflexivity].
Qed.

Lemma tq_stop_after_start_witness :
  (exists ret tq,
     tq_start (fun j => (0, 100 + Z.of_nat j)) (snd (tq_init true (TQSI 4096 3)))
     = Some (ret, tq) /\
     ret = 3 /\
     tq_stop tq = Some (0, [100; 101; 102])) /\
  (exists ret tq,
     tq_start (fun j => if Nat.eqb j 1 then (11, 0) else (0, 100 + Z.of_nat j))
              (snd (tq_init true (TQSI 4096 3))) = Some (ret, tq) /\
     ret = 2 /\
     tq_stop tq = None).
Proof.
  split.
  - destruct (tq_stop_after_start (fun j => (0, 100 + Z.of_nat j)) (TQSI 4096 3))
      as (ret & tq & E & Hall & _); [unfold INT_MAX; cbn; lia|].
    exists ret, tq. split; [exact E|].
    assert (Hret : ret = 3) by (cbn in E; injection E as <- _; reflexivity).
    split; [exact Hret|]. apply Hall. exact Hret.
  - destruct (tq_stop_after_start
                (fun j => if Nat.eqb j 1 then (11, 0) else (0, 100 + Z.of_nat j))
                (TQSI 4096 3))
      as (ret & tq & E & _ & Hfail); [unfold INT_MAX; cbn; lia|].
    exists ret, tq. split; [exact E|].
    assert (Hret : ret = 2) by (cbn in E; injection E as <- _; reflexivity).
    split; [exact Hret|]. apply Hfail. rewrite Hret. cbn. lia.
Defined.

(** X17.  The block of thread handles is there only between a successful
    [tq_init] and [tq_destroy].  [tq_init] returns [ENOMEM] (not 0) when
    [malloc] fails and 0 otherwise; for a pool of at least one worker,
    [tq_start] and [tq_stop] after a failed [tq_init] go through the null
    pointer; [tq_destroy] returns 0 but leaves the pointer to the freed
    block in place, so that [tq_start] and [tq_stop] after it use freed
    memory and a second [tq_destroy] frees the block twice. *)
Theorem pool_block_lifetime create tqsi :
  0 < si_max_threads tqsi ->
  fst (tq_init false tqsi) = ENOMEM /\ ENOMEM <> 0 /\
  fst (tq_init true tqsi) = 0 /\
  tq_start create (snd (tq_init false tqsi)) = None /\
  tq_stop (snd (tq_init false tqsi)) = None /\
  exists tq1,
    tq_destroy (snd (tq_init true tqsi)) = Some (0, tq1) /\
    tq_start create tq1 = None /\
    tq_stop tq1 = None /\
    tq_destroy tq1 = None.
Proof.
  intros HM.
  split; [reflexivity|]. split; [discriminate|]. split; [reflexivity|].
  unfold tq_start, tq_stop, tq_destroy, tq_init.
  cbn [snd max_threads threads fq].
  destruct (Z.to_nat (si_max_threads tqsi)) as [|n] eqn:En; [lia|].
  split; [reflexivity|]. split; [reflexivity|].
  eexists. split; [reflexivity|]. cbn [max_threads threads]. rewrite En.
  repeat split.
Qed.

Lemma pool_block_lifetime_witness :
  fst (tq_init false (TQSI 4096 2)) = ENOMEM /\ ENOMEM <> 0 /\
  fst (tq_init true (TQSI 4096 2)) = 0 /\
  tq_start (fun j => (0, Z.of_nat j)) (snd (tq_init false (TQSI 4096 2))) = None /\
  tq_stop (snd (tq_init false (TQSI 4096 2))) = None /\
  exists tq1,
    tq_destroy (snd (tq_init true (TQSI 4096 2))) = Some (0, tq1) /\
    tq_start (fun j => (0, Z.of_nat j)) tq1 = None /\
    tq_stop tq1 = None /\
    tq_destroy tq1 = None.
Proof.
  apply (pool_block_lifetime (fun j => (0, Z.of_nat j)) (TQSI 4096 2)).
  cbn. lia.
Defined.
